(** * NoteDiscovery frontend (src/frontend/app.js): note index, folder tree,
    undo/redo history, filter engine and the wikilink renderer.

    Shallow embedding of the JavaScript.  Strings are Stdlib strings of
    ASCII characters; [toLowerCase] is modelled on ASCII letters.  JS [Map]
    objects used as existence-only maps are [gset string]; the media map is
    a [gmap string string]; JS objects used as ordered dictionaries are
    association lists. *)

From Stdlib Require Import String Ascii Bool.
From stdpp Require Import base gmap strings list.

Local Open Scope string_scope.

(* ------------------------------------------------------------------ *)
(** ** String helpers mirroring the JS built-ins *)

Definition lower_char (c : ascii) : ascii :=
  let n := nat_of_ascii c in
  if (65 <=? n)%nat && (n <=? 90)%nat then ascii_of_nat (n + 32) else c.

(** [String.prototype.toLowerCase], on 7-bit ASCII text: JavaScript maps
    other characters as well, in part depending on their context (the
    Greek capital sigma), which this definition does not model. *)
Fixpoint toLowerCase (s : string) : string :=
  match s with
  | EmptyString => EmptyString
  | String c r => String (lower_char c) (toLowerCase r)
  end.

(** The text is 7-bit ASCII, where [toLowerCase] agrees with JavaScript. *)
Definition is_ascii7 (s : string) : bool :=
  forallb (fun c => (nat_of_ascii c <? 128)%nat) (list_ascii_of_string s).

(** [s.replace(/\.md$/i, '')] *)
Definition endsWithMdI (s : string) : bool :=
  (3 <=? String.length s)%nat &&
  String.eqb (toLowerCase (substring (String.length s - 3) 3 s)) ".md".

Definition stripMd (s : string) : string :=
  if endsWithMdI s then substring 0 (String.length s - 3) s else s.

(** [s.split(sep)] for a one-character separator *)
Fixpoint splitOn (sep : ascii) (s : string) : list string :=
  match s with
  | EmptyString => [""]
  | String c r =>
      let rest := splitOn sep r in
      if Ascii.eqb c sep then "" :: rest
      else match rest with
           | [] => [String c ""]
           | h :: t => String c h :: t
           end
  end.

Definition slash : ascii := "/"%char.

(** [path.split('/').pop()] *)
Definition lastSegment (p : string) : string := List.last (splitOn slash p) "".

(* ------------------------------------------------------------------ *)
(** ** Note / media entries, as returned by [/api/notes] *)

Record entry := mkEntry {
  path : string;
  name : string;
  folder : string;
  type : string;        (** ['note'] for notes, anything else for media *)
  tags : list string    (** an absent [tags] field is the empty list *)
}.

Definition is_note (n : entry) : bool := String.eqb (type n) "note".

(* ------------------------------------------------------------------ *)
(** ** NoteIndex: [buildNoteLookupMaps], [wikiLinkExists],
    [resolveMediaWikilink] *)

Record lookup := mkLookup {
  byPath : gset string;
  byPathLower : gset string;
  byName : gset string;
  byNameLower : gset string;
  byEndPath : gset string;
  mediaLookup : gmap string string
}.

Definition empty_lookup : lookup := mkLookup ∅ ∅ ∅ ∅ ∅ ∅.

(** One iteration of the [for (const note of this.notes)] loop. *)
Definition add_entry (L : lookup) (note : entry) : lookup :=
  let p := path note in
  let pathLower := toLowerCase p in
  let nm := name note in
  let nameLower := toLowerCase nm in
  if negb (is_note note) then
    let filenameWithExt := toLowerCase (lastSegment p) in
    match mediaLookup L !! filenameWithExt with
    | Some _ => L
    | None =>
        mkLookup (byPath L) (byPathLower L) (byName L) (byNameLower L)
                 (byEndPath L) (<[filenameWithExt := p]> (mediaLookup L))
    end
  else
    let nameWithoutMd := stripMd nm in
    let nameWithoutMdLower := toLowerCase nameWithoutMd in
    mkLookup
      ({[stripMd p]} ∪ ({[p]} ∪ byPath L))
      ({[stripMd pathLower]} ∪ ({[pathLower]} ∪ byPathLower L))
      ({[nameWithoutMd]} ∪ ({[nm]} ∪ byName L))
      ({[nameWithoutMdLower]} ∪ ({[nameLower]} ∪ byNameLower L))
      ({["/" ++ nameLower]} ∪ ({["/" ++ nameWithoutMdLower]} ∪ byEndPath L))
      (mediaLookup L).

(** The maps are cleared, then repopulated in list order. *)
Definition buildNoteLookupMaps (notes : list entry) : lookup :=
  fold_left add_entry notes empty_lookup.

Definition has (s : gset string) (k : string) : bool := bool_decide (k ∈ s).

Definition wikiLinkExists (L : lookup) (linkTarget : string) : bool :=
  let targetLower := toLowerCase linkTarget in
  has (byPath L) linkTarget ||
  has (byPath L) (linkTarget ++ ".md") ||
  has (byPathLower L) targetLower ||
  has (byPathLower L) (targetLower ++ ".md") ||
  has (byName L) linkTarget ||
  has (byNameLower L) targetLower ||
  has (byEndPath L) ("/" ++ targetLower) ||
  has (byEndPath L) ("/" ++ targetLower ++ ".md").

(** [this._mediaLookup.get(nameLower) || null]: the empty string is falsy. *)
Definition resolveMediaWikilink (L : lookup) (mediaName : string) : option string :=
  match mediaLookup L !! toLowerCase mediaName with
  | Some v => if String.eqb v "" then None else Some v
  | None => None
  end.

(** Inclusion of the existence-only maps of two indexes. *)
Definition lookup_incl (L L' : lookup) : Prop :=
  byPath L ⊆ byPath L' /\ byPathLower L ⊆ byPathLower L' /\
  byName L ⊆ byName L' /\ byNameLower L ⊆ byNameLower L' /\
  byEndPath L ⊆ byEndPath L'.

(** The key under which a media entry is registered. *)
Definition media_key (e : entry) : string := toLowerCase (lastSegment (path e)).

(* ------------------------------------------------------------------ *)
(** ** FolderTree: [buildFolderTree]

    A folder node [{name, path, children, notes, noteCount}]; [children] is
    a JS object used as a dictionary, kept as an insertion-ordered
    association list ([folders]).  [noteCount] is [undefined] ([None])
    until [calculateNoteCounts] sets it.  Keys are plain folder names (no
    name of an [Object.prototype] property). *)

Inductive folder_node : Type :=
  | Folder (fname fpath : string) (children : folders) (notes : list entry)
           (noteCount : option nat)
with folders : Type :=
  | FNil
  | FCons (key : string) (node : folder_node) (rest : folders).

Scheme folder_ind_mut := Induction for folder_node Sort Prop
with folders_ind_mut := Induction for folders Sort Prop.

Definition children (f : folder_node) : folders :=
  match f with Folder _ _ ch _ _ => ch end.

Definition notes (f : folder_node) : list entry :=
  match f with Folder _ _ _ ns _ => ns end.

Definition noteCount (f : folder_node) : option nat :=
  match f with Folder _ _ _ _ c => c end.

Definition set_children (f : folder_node) (ch : folders) : folder_node :=
  match f with Folder n p _ ns c => Folder n p ch ns c end.

(** [node.notes.push(note)] *)
Definition push_note (f : folder_node) (e : entry) : folder_node :=
  match f with Folder n p ch ns c => Folder n p ch (ns ++ [e]) c end.

Definition new_folder (nm p : string) : folder_node := Folder nm p FNil [] None.

(** [current[k]] *)
Fixpoint fl_get (k : string) (m : folders) : option folder_node :=
  match m with
  | FNil => None
  | FCons k' n r => if String.eqb k k' then Some n else fl_get k r
  end.

(** [current[k] = v]: in place when present, appended otherwise. *)
Fixpoint fl_set (k : string) (v : folder_node) (m : folders) : folders :=
  match m with
  | FNil => FCons k v FNil
  | FCons k' n r => if String.eqb k k' then FCons k' v r else FCons k' n (fl_set k v r)
  end.

(** [if (!current[part]) current[part] = {name: part, path: fullPath, ...}] *)
Definition get_or_new (k fullPath : string) (m : folders) : folder_node :=
  match fl_get k m with Some n => n | None => new_folder k fullPath end.

Definition join_slash (parts : list string) : string := String.concat "/" parts.

(** Seeding of one explicit folder path, [parts] being [folderPath.split('/')]
    and [seen] the parts already walked. *)
Fixpoint seed_folder (cur : folders) (seen parts : list string) : folders :=
  match parts with
  | [] => cur
  | p :: rest =>
      let full := app seen [p] in
      let node := get_or_new p (join_slash full) cur in
      fl_set p (set_children node (seed_folder (children node) full rest)) cur
  end.

(** Placing a note in its folder [note.folder.split('/')]. *)
Fixpoint place_note (cur : folders) (seen parts : list string) (e : entry) : folders :=
  match parts with
  | [] => cur
  | p :: rest =>
      let full := app seen [p] in
      let node := get_or_new p (join_slash full) cur in
      match rest with
      | [] => fl_set p (push_note node e) cur
      | _ :: _ => fl_set p (set_children node (place_note (children node) full rest e)) cur
      end
  end.

Definition root_key : string := "__root__".

(** One iteration of [this.notes.forEach(note => ...)]. *)
Definition add_note_to_tree (tree : folders) (e : entry) : folders :=
  if String.eqb (folder e) "" then
    fl_set root_key (push_note (get_or_new root_key "" tree) e) tree
  else place_note tree [] (splitOn slash (folder e)) e.

Section FolderTree.
(** [a.name.toLowerCase().localeCompare(b.name.toLowerCase())]: the
    locale-aware comparison, as a three-way result (negative, zero,
    positive). *)
Variable localeCompare : string -> string -> Z.

Definition cmp_name (a b : entry) : Z :=
  localeCompare (toLowerCase (name a)) (toLowerCase (name b)).

(** [Array.prototype.sort] is stable: insertion sort that places each
    element after every earlier element not greater than it. *)
Fixpoint insert_sorted (x : entry) (l : list entry) : list entry :=
  match l with
  | [] => [x]
  | y :: r => if (0 <? cmp_name y x)%Z then x :: y :: r else y :: insert_sorted x r
  end.

Definition sort_notes_stable (l : list entry) : list entry :=
  fold_left (fun acc x => insert_sorted x acc) l [].

(** [sortNotes] *)
Fixpoint sortNotes (f : folder_node) : folder_node :=
  match f with
  | Folder n p ch ns c =>
      Folder n p (sortNotes_l ch)
        (if (0 <? length ns)%nat then sort_notes_stable ns else ns) c
  end
with sortNotes_l (m : folders) : folders :=
  match m with
  | FNil => FNil
  | FCons k f r => FCons k (sortNotes f) (sortNotes_l r)
  end.

Fixpoint count_of (m : folders) : nat :=
  match m with
  | FNil => 0
  | FCons _ f r => from_option id 0 (noteCount f) + count_of r
  end.

Definition is_empty (m : folders) : bool :=
  match m with FNil => true | FCons _ _ _ => false end.

(** [calculateNoteCounts]: sets [noteCount] on the node and all its
    descendants; the returned number is the [noteCount] of the result. *)
Fixpoint calculateNoteCounts (f : folder_node) : folder_node :=
  match f with
  | Folder n p ch ns _ =>
      let directNotes := length ns in
      if is_empty ch then Folder n p ch ns (Some directNotes)
      else
        let ch' := calculateNoteCounts_l ch in
        Folder n p ch' ns (Some (directNotes + count_of ch'))
  end
with calculateNoteCounts_l (m : folders) : folders :=
  match m with
  | FNil => FNil
  | FCons k f r => FCons k (calculateNoteCounts f) (calculateNoteCounts_l r)
  end.

(** Sorting the root bucket first ([tree['__root__'].notes = [...].sort]). *)
Definition sort_root (tree : folders) : folders :=
  match fl_get root_key tree with
  | Some (Folder n p ch ns c) => fl_set root_key (Folder n p ch (sort_notes_stable ns) c) tree
  | None => tree
  end.

Definition buildFolderTree (allNotes : list entry) (allFolders : list string) : folders :=
  let t1 := fold_left (fun t fp => seed_folder t [] (splitOn slash fp)) allFolders FNil in
  let t2 := fold_left add_note_to_tree allNotes t1 in
  let t3 := sort_root t2 in
  let t4 := sortNotes_l t3 in
  calculateNoteCounts_l t4.
End FolderTree.

(** The invariant: every node's [noteCount] is its number of direct notes
    plus the sum of its children's [noteCount]s. *)
Fixpoint counts_ok (f : folder_node) : Prop :=
  match f with
  | Folder _ _ ch ns c => c = Some (length ns + count_of ch) /\ counts_ok_l ch
  end
with counts_ok_l (m : folders) : Prop :=
  match m with
  | FNil => True
  | FCons _ f r => counts_ok f /\ counts_ok_l r
  end.

(* ------------------------------------------------------------------ *)
(** ** History Manager: [loadNote] (history part), [autoSave] /
    [pushToHistory], [flushHistory], [commitToHistory], [undo], [redo]

    Stacks are JS arrays with their top at the end: [push] appends,
    [pop] removes the last element, [shift] drops the first.  The editor's
    [selectionStart] is part of the state.  The cursor restoration that
    [undo]/[redo] schedule on the next tick is applied at once; the
    [isUndoRedo] flag only matters for edits typed during that tick, which
    are not modelled. *)

Definition MAX_UNDO_HISTORY : nat := 50.

Definition maxHistorySize : nat := MAX_UNDO_HISTORY.

Record hentry := mkH { content : string; cursorPos : nat }.

Record hstate := mkHS {
  currentNote : string;
  noteContent : string;
  selectionStart : nat;
  undoHistory : list hentry;
  redoHistory : list hentry;
  hasPendingHistoryChanges : bool
}.

Definition set_pending (s : hstate) (b : bool) : hstate :=
  mkHS (currentNote s) (noteContent s) (selectionStart s)
       (undoHistory s) (redoHistory s) b.

(** [loadNote]: content loaded, history reseeded with one entry. *)
Definition loadNote (notePath loaded : string) (s : hstate) : hstate :=
  mkHS notePath loaded (selectionStart s) [mkH loaded 0] [] false.

(** An editor input event: the content and cursor change, then [autoSave]
    calls [pushToHistory]. *)
Definition recordEdit (c : string) (cursor : nat) (s : hstate) : hstate :=
  mkHS (currentNote s) c cursor (undoHistory s) (redoHistory s) true.

Definition commitToHistory (s : hstate) : hstate :=
  let cur := noteContent s in
  match last (undoHistory s) with
  | Some top => if String.eqb (content top) cur then set_pending s false
               else
                 let u := app (undoHistory s) [mkH cur (selectionStart s)] in
                 let u' := if (maxHistorySize <? length u)%nat then tail u else u in
                 mkHS (currentNote s) cur (selectionStart s) u' [] false
  | None =>
      let u := app (undoHistory s) [mkH cur (selectionStart s)] in
      let u' := if (maxHistorySize <? length u)%nat then tail u else u in
      mkHS (currentNote s) cur (selectionStart s) u' [] false
  end.

(** [flushHistory], and the autosave timer's [if (hasPendingHistoryChanges)
    this.commitToHistory()]. *)
Definition flushHistory (s : hstate) : hstate :=
  if hasPendingHistoryChanges s then commitToHistory s else s.

Definition undo (s : hstate) : hstate :=
  if String.eqb (currentNote s) "" then s else
  let s1 := flushHistory s in
  if (length (undoHistory s1) <=? 1)%nat then s1 else
  match last (undoHistory s1) with
  | None => s1
  | Some currentState =>
      let u := removelast (undoHistory s1) in
      let r := app (redoHistory s1) [currentState] in
      match last u with
      | Some previousState =>
          mkHS (currentNote s1) (content previousState)
               (Nat.min (cursorPos previousState) (String.length (content previousState)))
               u r (hasPendingHistoryChanges s1)
      | None => s1
      end
  end.

Definition redo (s : hstate) : hstate :=
  if String.eqb (currentNote s) "" then s else
  let s1 := flushHistory s in
  match last (redoHistory s1) with
  | None => s1
  | Some nextState =>
      mkHS (currentNote s1) (content nextState)
           (Nat.min (cursorPos nextState) (String.length (content nextState)))
           (app (undoHistory s1) [nextState]) (removelast (redoHistory s1))
           (hasPendingHistoryChanges s1)
  end.

Inductive hop :=
  | RecordEdit (c : string) (cursor : nat)
  | Commit
  | Flush
  | Undo
  | Redo.

Definition hstep (s : hstate) (o : hop) : hstate :=
  match o with
  | RecordEdit c k => recordEdit c k s
  | Commit => flushHistory s
  | Flush => flushHistory s
  | Undo => undo s
  | Redo => redo s
  end.

Definition hrun (ops : list hop) (s : hstate) : hstate := fold_left hstep ops s.

(** History invariant: the undo stack is non-empty, and the two stacks
    together hold at most [maxHistorySize] entries. *)
Definition hinv (s : hstate) : Prop :=
  (1 <= length (undoHistory s))%nat /\
  (length (undoHistory s) + length (redoHistory s) <= maxHistorySize)%nat.

(** Whether the current content equals the top of the undo stack. *)
Definition top_matches (s : hstate) : bool :=
  match last (undoHistory s) with
  | Some top => String.eqb (content top) (noteContent s)
  | None => false
  end.

(* ------------------------------------------------------------------ *)
(** ** Filter Engine: [applyFilters], [noteMatchesTags],
    [debouncedSearchNotes]

    The search collaborator ([/api/search]) is a function from the query to
    the hits it returns.  A request captures the query and [hasTagFilter]
    when [applyFilters] issues it; the code after [await] runs when its
    response arrives, in any order relative to other responses. *)

Definition is_space (c : ascii) : bool :=
  let n := nat_of_ascii c in ((9 <=? n)%nat && (n <=? 13)%nat) || (n =? 32)%nat.

Fixpoint trim_start (s : string) : string :=
  match s with
  | EmptyString => EmptyString
  | String c r => if is_space c then trim_start r else s
  end.

Definition rev_string (s : string) : string := string_of_list_ascii (rev (list_ascii_of_string s)).

(** [String.prototype.trim] on ASCII white space *)
Definition trim (s : string) : string := rev_string (trim_start (rev_string (trim_start s))).

Record hit := mkHit { hpath : string; snippet : string }.

(** [searchResults] holds note entries (tag-only filter) or search hits. *)
Inductive result :=
  | NoteResult (e : entry)
  | HitResult (h : hit).

Record fstate := mkFS {
  searchQuery : string;
  selectedTags : list string;
  allNotes : list entry;
  searchResults : list result;
  isSearching : bool;
  searchTimerPending : bool;
  inflight : list (string * bool)   (** issued requests: query, hasTagFilter *)
}.

Definition noteMatchesTags (selected : list string) (n : entry) : bool :=
  match selected with
  | [] => true
  | _ :: _ =>
      match tags n with
      | [] => false
      | _ :: _ => forallb (fun t => existsb (String.eqb t) (tags n)) selected
      end
  end.

Definition hasTextSearch (s : fstate) : bool := (0 <? String.length (trim (searchQuery s)))%nat.

Definition hasTagFilter (s : fstate) : bool := (0 <? length (selectedTags s))%nat.

Definition with_results (s : fstate) (rs : list result) (searching : bool) : fstate :=
  mkFS (searchQuery s) (selectedTags s) (allNotes s) rs searching
       (searchTimerPending s) (inflight s).

(** [applyFilters] up to its [await]: cases 1 and 2 complete at once, case
    3 issues a request for the current query. *)
Definition applyFilters (s : fstate) : fstate :=
  if negb (hasTextSearch s) && negb (hasTagFilter s) then with_results s [] false
  else if hasTagFilter s && negb (hasTextSearch s) then
    with_results s
      (map NoteResult (List.filter (fun n => is_note n && noteMatchesTags (selectedTags s) n) (allNotes s)))
      false
  else
    mkFS (searchQuery s) (selectedTags s) (allNotes s) (searchResults s) true
         (searchTimerPending s) (app (inflight s) [(searchQuery s, hasTagFilter s)]).

Section Search.
Variable search : string -> list hit.

(** The continuation of case 3 of [applyFilters] when the response to the
    [k]-th issued request arrives: no check against the current query. *)
Definition arrive (k : nat) (s : fstate) : fstate :=
  match (inflight s !! k : option (string * bool)) with
  | None => s
  | Some (q, tagFilter) =>
      let results := search q in
      let results' :=
        if tagFilter then
          List.filter (fun r => match List.find (fun n => String.eqb (path n) (hpath r)) (allNotes s) with
                           | Some n => noteMatchesTags (selectedTags s) n
                           | None => false
                           end) results
        else results in
      mkFS (searchQuery s) (selectedTags s) (allNotes s) (map HitResult results') false
           (searchTimerPending s) (delete k (inflight s))
  end.

(** Input in the search box followed by [debouncedSearchNotes]. *)
Definition setQuery (q : string) (s : fstate) : fstate :=
  let s1 := mkFS q (selectedTags s) (allNotes s) (searchResults s) (isSearching s)
                 false (inflight s) in
  if negb (hasTextSearch s1) then applyFilters (with_results s1 (searchResults s1) false)
  else mkFS q (selectedTags s) (allNotes s) [] true true (inflight s).

(** The search debounce timer fires: [searchNotes] calls [applyFilters]. *)
Definition fire (s : fstate) : fstate :=
  if searchTimerPending s then
    applyFilters (mkFS (searchQuery s) (selectedTags s) (allNotes s) (searchResults s)
                       (isSearching s) false (inflight s))
  else s.

Inductive fevent := SetQuery (q : string) | Fire | Arrive (k : nat).

Definition fstep (s : fstate) (e : fevent) : fstate :=
  match e with
  | SetQuery q => setQuery q s
  | Fire => fire s
  | Arrive k => arrive k s
  end.

Definition frun (evs : list fevent) (s : fstate) : fstate := fold_left fstep evs s.
End Search.

Definition fstate0 : fstate := mkFS "" [] [] [] false false [].

(** The spec's tag rule: a note's tag list includes every selected tag. *)
Definition tags_superset (selected : list string) (n : entry) : bool :=
  bool_decide (selected ⊆ tags n).

(* ------------------------------------------------------------------ *)
(** ** Content Renderer: the [renderedMarkdown] getter

    The front-matter stripping is embedded as written.  The remaining
    stages (protection of code, media and note wikilinks, [marked.parse]
    and the DOM post-processing) read the note index, which is fixed here,
    and are the function [rest]. *)

Definition nl : string := String (ascii_of_nat 10) EmptyString.

Definition dq : string := String (ascii_of_nat 34) EmptyString.

(** First index [i >= 1] with [lines[i].trim() === '---'], counted from
    [from]. *)
Fixpoint find_closing (lines : list string) (from : nat) : option nat :=
  match lines with
  | [] => None
  | l :: r => if String.eqb (trim l) "---" then Some from else find_closing r (S from)
  end.

Definition stripFrontmatter (contentToRender : string) : string :=
  if String.prefix "---" (trim contentToRender) then
    let lines := splitOn (ascii_of_nat 10) contentToRender in
    if String.eqb (trim (List.hd "" lines)) "---" then
      match find_closing (List.tl lines) 1 with
      | Some endIdx => trim (String.concat nl (List.skipn (endIdx + 1) lines))
      | None => contentToRender
      end
    else contentToRender
  else contentToRender.

Definition emptyPreview : string :=
  "<p style=" ++ dq ++ "color: var(--text-tertiary);" ++ dq ++ ">Nothing to preview yet...</p>".

(** The single-slot cache; [pipelineRuns] counts how often the pipeline
    ran (each run also schedules the MathJax, Mermaid and highlighting
    timers). *)
Record rstate := mkRS {
  lastRenderedContent : string;
  cachedRenderedHTML : string;
  pipelineRuns : nat
}.

(** The cache as [loadNote] leaves it. *)
Definition rstate_cleared (n : nat) : rstate := mkRS "" "" n.

Section Render.
Variable rest : string -> string.

Definition renderedMarkdown (noteContent : string) (st : rstate) : string * rstate :=
  if String.eqb noteContent "" then (emptyPreview, st)
  else if String.eqb noteContent (lastRenderedContent st) &&
          negb (String.eqb (cachedRenderedHTML st) "")
  then (cachedRenderedHTML st, st)
  else
    let html := rest (stripFrontmatter noteContent) in
    (html, mkRS noteContent html (S (pipelineRuns st))).

(** The value the getter computes from scratch. *)
Definition render_pure (noteContent : string) : string :=
  if String.eqb noteContent "" then emptyPreview else rest (stripFrontmatter noteContent).

(** The cache holds either nothing or the rendering of its key. *)
Definition cache_ok (st : rstate) : Prop :=
  cachedRenderedHTML st = "" \/
  cachedRenderedHTML st = rest (stripFrontmatter (lastRenderedContent st)).
End Render.

(** A converter with [marked.parse('') === '']. *)
Definition markedLike (t : string) : string :=
  if String.eqb t "" then "" else "<p>" ++ t ++ "</p>".

(* ------------------------------------------------------------------ *)
(** ** Note wikilinks: the callback of step 2b of [renderedMarkdown]

    [(match, target, displayText) => ...] for the pattern
    [/\[\[([^\]|]+)(?:\|([^\]]+))?\]\]/g]; [displayText] is [undefined]
    ([None]) when the link has no [|display] part.  [exists] is
    [self.wikiLinkExists] for the current index. *)

(** [s.replace(/c/g, rep)] for a single character [c] *)
Fixpoint replace_all_char (c : ascii) (rep : string) (s : string) : string :=
  match s with
  | EmptyString => EmptyString
  | String x r =>
      if Ascii.eqb x c then rep ++ replace_all_char c rep r
      else String x (replace_all_char c rep r)
  end.

Definition escapeHref (t : string) : string := replace_all_char (ascii_of_nat 34) "%22" t.

Definition escapeText (t : string) : string :=
  replace_all_char ">"%char "&gt;" (replace_all_char "<"%char "&lt;" (replace_all_char "&"%char "&amp;" t)).

Definition wikilink_anchor (safeHref brokenClass safeText : string) : string :=
  "<a href=" ++ dq ++ safeHref ++ dq ++ brokenClass ++ " data-wikilink=" ++ dq ++ "true" ++ dq
  ++ ">" ++ safeText ++ "</a>".

Definition renderNoteWikilink (exists_ : string -> bool) (target : string)
    (displayText : option string) : string :=
  let linkTarget := trim target in
  let linkText := match displayText with
                  | Some d => if String.eqb d "" then linkTarget else trim d
                  | None => linkTarget
                  end in
  let basePath := match String.index 0 "#" linkTarget with
                  | Some hashIndex => substring 0 hashIndex linkTarget
                  | None => linkTarget
                  end in
  let noteExists := String.eqb basePath "" || exists_ basePath in
  let safeHref := escapeHref linkTarget in
  let safeText := escapeText linkText in
  let brokenClass := if noteExists then "" else " class=" ++ dq ++ "wikilink-broken" ++ dq in
  wikilink_anchor safeHref brokenClass safeText.

(* ------------------------------------------------------------------ *)
(** ** Further properties: index consistency *)

(** Every exact key has its lowercase form in the matching lowercase map. *)
Definition idx_ok (L : lookup) : Prop :=
  (forall k, k ∈ byPath L -> toLowerCase k ∈ byPathLower L) /\
  (forall k, k ∈ byName L -> toLowerCase k ∈ byNameLower L).

(** The note-derived and the media-derived parts of an index. *)
Definition note_maps (L : lookup) :=
  (byPath L, byPathLower L, byName L, byNameLower L, byEndPath L).

(** Number of notes held anywhere in a (sub)tree. *)
Fixpoint total_f (f : folder_node) : nat :=
  match f with Folder _ _ ch ns _ => length ns + total_l ch end
with total_l (m : folders) : nat :=
  match m with FNil => 0 | FCons _ f r => total_f f + total_l r end.

Definition tot_get (k : string) (m : folders) : nat := from_option total_f 0 (fl_get k m).

(* ------------------------------------------------------------------ *)
(** ** [FilenameValidator.validateFilename] and [validatePath]

    A result is [{valid: true, sanitized}] or [{valid: false, error}]; the
    [forbiddenChars] display string that comes with [forbidden_chars] is
    left out.  The empty string stands for the falsy and non-string
    arguments. *)

Inductive vresult :=
  | Valid (sanitized : string)
  | Invalid (error : string).

(** [FORBIDDEN_CHARS]: backslash, slash, colon, star, question mark,
    double quote, angle brackets, bar and the control characters below 32. *)
Definition forbidden_char (c : ascii) : bool :=
  (nat_of_ascii c <? 32)%nat ||
  existsb (Ascii.eqb c) ["\"%char; "/"%char; ":"%char; "*"%char; "?"%char;
                         ascii_of_nat 34; "<"%char; ">"%char; "|"%char].

Definition has_forbidden (s : string) : bool := existsb forbidden_char (list_ascii_of_string s).

Definition is_digit19 (c : ascii) : bool :=
  let n := nat_of_ascii c in (49 <=? n)%nat && (n <=? 57)%nat.

(** [(\.|$)] *)
Definition reserved_end (r : string) : bool :=
  match r with
  | EmptyString => true
  | String c _ => Ascii.eqb c "."
  end.

(** [/^(CON|PRN|AUX|NUL|COM[1-9]|LPT[1-9])(\.|$)/i] *)
Definition reservedNames (t : string) : bool :=
  match toLowerCase t with
  | String a (String b (String c r)) =>
      let w := String a (String b (String c EmptyString)) in
      (existsb (String.eqb w) ["con"; "prn"; "aux"; "nul"] && reserved_end r) ||
      (existsb (String.eqb w) ["com"; "lpt"] &&
         match r with
         | String d r' => is_digit19 d && reserved_end r'
         | EmptyString => false
         end)
  | _ => false
  end.

Fixpoint last_char (s : string) : option ascii :=
  match s with
  | EmptyString => None
  | String c EmptyString => Some c
  | String _ r => last_char r
  end.

(** [s.endsWith(c)] for a one-character [c] *)
Definition ends_with_char (c : ascii) (s : string) : bool :=
  match last_char s with Some d => Ascii.eqb d c | None => false end.

Definition validateFilename (nm : string) : vresult :=
  if String.eqb nm "" then Invalid "empty" else
  let trimmed := trim nm in
  if String.eqb trimmed "" then Invalid "empty"
  else if has_forbidden trimmed then Invalid "forbidden_chars"
  else if reservedNames trimmed then Invalid "reserved_name"
  else if String.prefix "." trimmed && (String.length trimmed =? 1)%nat then Invalid "invalid_dot"
  else if ends_with_char "." trimmed || ends_with_char " " trimmed then Invalid "trailing_dot_space"
  else Valid trimmed.

(** The [for (const segment of segments)] loop: the first invalid result. *)
Fixpoint first_invalid (segs : list string) : option vresult :=
  match segs with
  | [] => None
  | s :: r =>
      match validateFilename s with
      | Invalid e => Some (Invalid e)
      | Valid _ => first_invalid r
      end
  end.

Definition validatePath (p : string) : vresult :=
  if String.eqb p "" then Invalid "empty" else
  let trimmed := trim p in
  if String.eqb trimmed "" then Invalid "empty" else
  let segments := List.filter (fun s => (0 <? String.length s)%nat) (splitOn slash trimmed) in
  match segments with
  | [] => Invalid "empty"
  | _ :: _ =>
      match first_invalid segments with
      | Some r => r
      | None => Valid (String.concat "/" segments)
      end
  end.

(* ------------------------------------------------------------------ *)
(** ** [toggleTag], [toggleFavorite] / [isFavorite], [filterQuickSwitcher] *)

(** [arr.splice(arr.indexOf(x), 1)]: the first occurrence goes. *)
Fixpoint remove_first (x : string) (l : list string) : list string :=
  match l with
  | [] => []
  | y :: r => if String.eqb y x then r else y :: remove_first x r
  end.

Definition toggle_list (tag : string) (l : list string) : list string :=
  if existsb (String.eqb tag) l then remove_first tag l else app l [tag].

Definition toggleTag (tag : string) (s : fstate) : fstate :=
  applyFilters (mkFS (searchQuery s) (toggle_list tag (selectedTags s)) (allNotes s)
                     (searchResults s) (isSearching s) (searchTimerPending s) (inflight s)).

(** The favorites array and the [Set] rebuilt from it; [saveFavorites]
    only writes [favorites] to local storage. *)
Record favstate := mkFav { favorites : list string; favoritesSet : gset string }.

Definition isFavorite (st : favstate) (notePath : string) : bool :=
  bool_decide (notePath ∈ favoritesSet st).

(** [toggleFavorite(notePath)], [cur] being [this.currentNote]; the empty
    string stands for a [null] argument. *)
Definition toggleFavorite (notePath cur : string) (st : favstate) : favstate :=
  let p := if String.eqb notePath "" then cur else notePath in
  if String.eqb p "" then st else
  let favs := if isFavorite st p
              then List.filter (fun f => negb (String.eqb f p)) (favorites st)
              else app (favorites st) [p] in
  mkFav favs (list_to_set favs).

(** [s.includes(q)] *)
Definition includes (s q : string) : bool :=
  match String.index 0 q s with Some _ => true | None => false end.

Definition filterQuickSwitcher (allNotes : list entry) (query : string) : list entry :=
  let ns := List.filter is_note allNotes in
  if String.eqb query "" || String.eqb (trim query) "" then firstn 10 ns
  else
    let q := toLowerCase query in
    firstn 10 (List.filter (fun n => includes (toLowerCase (name n)) q ||
                                     includes (toLowerCase (path n)) q) ns).

(* ------------------------------------------------------------------ *)
(** ** [escapeHtmlAttr], [getMediaType] *)

Definition escapeHtmlAttr (str : string) : string :=
  replace_all_char ">"%char "&gt;"
    (replace_all_char "<"%char "&lt;"
      (replace_all_char "'"%char "&#39;"
        (replace_all_char (ascii_of_nat 34) "&quot;"
          (replace_all_char "&"%char "&amp;" str)))).

Definition getMediaType (filename : string) : option string :=
  if String.eqb filename "" then None else
  let ext := toLowerCase (List.last (splitOn "."%char filename) "") in
  if existsb (String.eqb ext) ["jpg"; "jpeg"; "png"; "gif"; "webp"] then Some "image"
  else if existsb (String.eqb ext) ["mp3"; "wav"; "ogg"; "m4a"] then Some "audio"
  else if existsb (String.eqb ext) ["mp4"; "webm"; "mov"; "avi"] then Some "video"
  else if existsb (String.eqb ext) ["pdf"] then Some "document"
  else None.

(** Decoding of the five character references these escapers emit, as an
    HTML parser does when it reads the text or the attribute back. *)
Fixpoint html_decode (s : string) : string :=
  match s with
  | String "&" (String "a" (String "m" (String "p" (String ";" r)))) => String "&" (html_decode r)
  | String "&" (String "q" (String "u" (String "o" (String "t" (String ";" r))))) =>
      String (ascii_of_nat 34) (html_decode r)
  | String "&" (String "#" (String "3" (String "9" (String ";" r)))) => String "'" (html_decode r)
  | String "&" (String "l" (String "t" (String ";" r))) => String "<" (html_decode r)
  | String "&" (String "g" (String "t" (String ";" r))) => String ">" (html_decode r)
  | String c r => String c (html_decode r)
  | EmptyString => EmptyString
  end.

Definition has_char (c : ascii) (s : string) : bool := existsb (Ascii.eqb c) (list_ascii_of_string s).

(** [trim_start] on the characters. *)
Fixpoint ts_l (l : list ascii) : list ascii :=
  match l with
  | [] => []
  | c :: r => if is_space c then ts_l r else l
  end.

(* ------------------------------------------------------------------ *)
(** ** [parseTagsFromContent]

    [s.substring(n)] is [drop_str n s]; the default [Array.prototype.sort]
    compares code units, which on ASCII strings is [String.compare]; on
    the duplicate-free list it is given, any sorting algorithm returns the
    same list, here an insertion sort. *)

Definition drop_str (n : nat) (s : string) : string := substring n (String.length s - n) s.

(** [lines.slice(1, endIdx)] for the first [endIdx >= 1] whose line trims
    to [---]; [None] when there is none ([endIdx === -1]). *)
Fixpoint take_until_close (ls : list string) : option (list string) :=
  match ls with
  | [] => None
  | l :: r =>
      if String.eqb (trim l) "---" then Some []
      else match take_until_close r with Some fm => Some (l :: fm) | None => None end
  end.

(** The [for (const line of frontmatterLines)] loop; a [break] returns the
    tags collected so far. *)
Fixpoint tag_loop (ls : list string) (inTagsList : bool) (tags : list string) : list string :=
  match ls with
  | [] => tags
  | line :: r =>
      let stripped := trim line in
      if String.prefix "tags:" stripped then
        let rest := trim (drop_str 5 stripped) in
        if String.prefix "[" rest && ends_with_char "]" rest then
          let tagsStr := substring 1 (String.length rest - 2) rest in
          let rawTags := map trim (splitOn ","%char tagsStr) in
          app tags (map toLowerCase (List.filter (fun t => negb (String.eqb t "")) rawTags))
        else if negb (String.eqb rest "") then app tags [toLowerCase rest]
        else tag_loop r true tags
      else if inTagsList then
        if String.prefix "-" stripped then
          let tag := trim (drop_str 1 stripped) in
          if negb (String.eqb tag "") && negb (String.prefix "#" tag)
          then tag_loop r inTagsList (app tags [toLowerCase tag])
          else tag_loop r inTagsList tags
        else if negb (String.eqb stripped "") && negb (String.prefix "#" stripped) then tags
        else tag_loop r inTagsList tags
      else tag_loop r inTagsList tags
  end.

(** [[...new Set(tags)]]: first occurrences, in order. *)
Definition uniq (l : list string) : list string :=
  fold_left (fun acc x => if existsb (String.eqb x) acc then acc else app acc [x]) l [].

Fixpoint insert_str (x : string) (l : list string) : list string :=
  match l with
  | [] => [x]
  | y :: r => match String.compare x y with Gt => y :: insert_str x r | _ => x :: y :: r end
  end.

Definition sort_strings (l : list string) : list string := fold_left (fun acc x => insert_str x acc) l [].

Definition parseTagsFromContent (content : string) : list string :=
  if String.eqb content "" || negb (String.prefix "---" (trim content)) then [] else
  match splitOn (ascii_of_nat 10) content with
  | [] => []
  | l0 :: rest =>
      if negb (String.eqb (trim l0) "---") then [] else
      match take_until_close rest with
      | None => []
      | Some fm => sort_strings (uniq (tag_loop fm false []))
      end
  end.

(** Strictly increasing for [String.compare]. *)
Fixpoint sorted_lt (l : list string) : Prop :=
  match l with
  | x :: ((y :: _) as r) => String.compare x y = Lt /\ sorted_lt r
  | _ => True
  end.

Definition hd_lt (y : string) (l : list string) : Prop :=
  match l with [] => True | z :: _ => String.compare y z = Lt end.

(* ================================================================== *)
(** * Proofs *)

Example lastSegment_ex : lastSegment "a/b/Img.png" = "Img.png".
Proof. reflexivity. Qed.

Example stripMd_ex : stripMd "folder/Note.MD" = "folder/Note".
Proof. reflexivity. Qed.

Example exists_ex :
  wikiLinkExists (buildNoteLookupMaps [mkEntry "folder/Note.md" "Note" "folder" "note" []])
    "FOLDER/note" = true.
Proof. vm_compute. reflexivity. Qed.

(* ------------------------------------------------------------------ *)
(** ** Facts about the string helpers *)

Lemma lower_char_idem (c : ascii) : lower_char (lower_char c) = lower_char c.
Proof. destruct c as [[] [] [] [] [] [] [] []]; reflexivity. Qed.

Lemma toLowerCase_idem (s : string) : toLowerCase (toLowerCase s) = toLowerCase s.
Proof. induction s as [|c r IH]; simpl; [done|]. by rewrite lower_char_idem, IH. Qed.

Lemma toLowerCase_length (s : string) : String.length (toLowerCase s) = String.length s.
Proof. induction s as [|c r IH]; simpl; auto. Qed.

Lemma toLowerCase_substring (n m : nat) (s : string) :
  toLowerCase (substring n m s) = substring n m (toLowerCase s).
Proof.
  revert n m. induction s as [|c r IH]; intros n m.
  - destruct n, m; reflexivity.
  - destruct n as [|n]; [destruct m as [|m]|]; simpl; [done| |]; by rewrite IH.
Qed.

Lemma endsWithMdI_lower (s : string) : endsWithMdI (toLowerCase s) = endsWithMdI s.
Proof.
  unfold endsWithMdI. rewrite toLowerCase_length, <- toLowerCase_substring,
    toLowerCase_idem. reflexivity.
Qed.

Lemma stripMd_lower (s : string) : stripMd (toLowerCase s) = toLowerCase (stripMd s).
Proof.
  unfold stripMd. rewrite endsWithMdI_lower.
  destruct (endsWithMdI s); [|done].
  by rewrite toLowerCase_length, toLowerCase_substring.
Qed.

Lemma add_entry_incl (L : lookup) (n : entry) : lookup_incl L (add_entry L n).
Proof.
  unfold add_entry, lookup_incl.
  destruct (negb (is_note n)).
  - destruct (mediaLookup L !! _); simpl; repeat split; set_solver.
  - simpl; repeat split; set_solver.
Qed.

Lemma build_incl (ns : list entry) (L : lookup) :
  lookup_incl L (fold_left add_entry ns L).
Proof.
  revert L. induction ns as [|n ns IH]; intros L; simpl.
  - unfold lookup_incl; repeat split; set_solver.
  - destruct (add_entry_incl L n) as (H1 & H2 & H3 & H4 & H5).
    destruct (IH (add_entry L n)) as (G1 & G2 & G3 & G4 & G5).
    unfold lookup_incl; repeat split; set_solver.
Qed.

(** After the build, a note's lowercase path and lowercase stripped path
    are registered in [byPathLower]. *)
Lemma build_pathLower (pre post : list entry) (n : entry) :
  is_note n = true ->
  toLowerCase (path n) ∈ byPathLower (buildNoteLookupMaps (pre ++ n :: post)) /\
  stripMd (toLowerCase (path n)) ∈ byPathLower (buildNoteLookupMaps (pre ++ n :: post)).
Proof.
  intros Hn. unfold buildNoteLookupMaps. rewrite fold_left_app. simpl.
  destruct (build_incl post (add_entry (fold_left add_entry pre empty_lookup) n))
    as (_ & H & _).
  unfold add_entry in *. rewrite Hn in *. simpl in *. split; set_solver.
Qed.

(** The part of the existence check that works as documented: every case
    variant of a note's path, with or without its [.md] suffix, exists. *)
Lemma wikiLinkExists_path_variants (pre post : list entry) (n : entry) (s : string) :
  is_note n = true ->
  toLowerCase s = toLowerCase (path n) \/ toLowerCase s = toLowerCase (stripMd (path n)) ->
  wikiLinkExists (buildNoteLookupMaps (pre ++ n :: post)) s = true.
Proof.
  intros Hn Hs. destruct (build_pathLower pre post n Hn) as [H1 H2].
  unfold wikiLinkExists, has.
  destruct Hs as [Hs | Hs]; rewrite Hs.
  - rewrite (bool_decide_eq_true_2 _ H1). by rewrite !orb_true_r.
  - rewrite <- stripMd_lower, (bool_decide_eq_true_2 _ H2). by rewrite !orb_true_r.
Qed.

Lemma add_entry_media_keep (L : lookup) (e : entry) (k v : string) :
  mediaLookup L !! k = Some v -> mediaLookup (add_entry L e) !! k = Some v.
Proof.
  intros H. unfold add_entry. destruct (negb (is_note e)); simpl; [|done].
  case_match eqn:Hk; simpl; [done|].
  rewrite lookup_insert_ne; [done|]. intros <-. congruence.
Qed.

Lemma build_media_keep (l : list entry) (L : lookup) (k v : string) :
  mediaLookup L !! k = Some v -> mediaLookup (fold_left add_entry l L) !! k = Some v.
Proof.
  revert L. induction l as [|e l IH]; intros L H; simpl; [done|].
  apply IH, add_entry_media_keep, H.
Qed.

Lemma build_media_none (l : list entry) (L : lookup) (k : string) :
  mediaLookup L !! k = None ->
  Forall (fun e => is_note e = false -> media_key e <> k) l ->
  mediaLookup (fold_left add_entry l L) !! k = None.
Proof.
  revert L. induction l as [|e l IH]; intros L H Hl; simpl; [done|].
  apply Forall_cons in Hl as [He Hl]. apply IH; [|done].
  unfold add_entry. destruct (is_note e) eqn:Hn; simpl; [done|].
  case_match; simpl; [done|].
  rewrite lookup_insert_ne; [done|]. by apply He.
Qed.

Lemma build_media_first (pre post : list entry) (e : entry) :
  is_note e = false ->
  Forall (fun e' => is_note e' = false -> media_key e' <> media_key e) pre ->
  mediaLookup (buildNoteLookupMaps (pre ++ e :: post)) !! media_key e = Some (path e).
Proof.
  intros He Hpre. unfold buildNoteLookupMaps. rewrite fold_left_app. cbn [fold_left].
  apply build_media_keep.
  pose proof (build_media_none pre empty_lookup (media_key e) eq_refl Hpre) as H0.
  set (L0 := fold_left add_entry pre empty_lookup) in *.
  unfold add_entry. rewrite He. cbv zeta. change (negb false) with true. cbv iota.
  unfold media_key in H0 |- *. rewrite H0. apply lookup_insert_eq.
Qed.

(* ------------------------------------------------------------------ *)
(** ** Claims on the note index *)

(** C1 (code_bug): every case variant of a note's path, with or without
    [.md], is found (see [wikiLinkExists_path_variants]); but the end-path
    check prepends a second ['/'] to the target, so the target ['/'] +
    lowercase stem is looked up as ["//note"] and is not found for the
    note [folder/Note.md]. *)
Theorem wikiLinkExists_slash_stem_missed :
  let L := buildNoteLookupMaps [mkEntry "folder/Note.md" "Note" "folder" "note" []] in
  wikiLinkExists L "folder/Note.md" = true /\
  wikiLinkExists L "FOLDER/NOTE" = true /\
  wikiLinkExists L "/note" = false.
Proof. vm_compute. repeat split. Qed.

(** C6: media lookup is case-insensitive on the file name with extension;
    the first non-note entry with a given lowercase file name is registered
    and never overwritten by later entries; every case variant of that file
    name resolves to its path; a name that no media entry carries resolves
    to [null] ([None]). *)
Theorem resolveMedia_first_wins :
  (forall (pre post : list entry) (e : entry) (s : string),
     is_note e = false ->
     path e <> "" ->
     Forall (fun e' => is_note e' = false -> media_key e' <> media_key e) pre ->
     toLowerCase s = media_key e ->
     mediaLookup (buildNoteLookupMaps (pre ++ e :: post)) !! media_key e = Some (path e) /\
     resolveMediaWikilink (buildNoteLookupMaps (pre ++ e :: post)) s = Some (path e)) /\
  (forall (l : list entry) (s : string),
     Forall (fun e => is_note e = false -> media_key e <> toLowerCase s) l ->
     resolveMediaWikilink (buildNoteLookupMaps l) s = None).
Proof.
  split.
  - intros pre post e s He Hp Hpre Hs.
    pose proof (build_media_first pre post e He Hpre) as H.
    split; [done|].
    unfold resolveMediaWikilink. rewrite Hs, H.
    destruct (String.eqb_spec (path e) ""); [contradiction|done].
  - intros l s Hl. unfold resolveMediaWikilink, buildNoteLookupMaps.
    by rewrite (build_media_none l empty_lookup (toLowerCase s) eq_refl Hl).
Qed.

(** The scenario of the spec: ["Img.png"] at [/a/Img.png] then ["img.png"]
    at [/b/img.png]; ["IMG.PNG"] resolves to [/a/Img.png]. *)
Lemma resolveMedia_first_wins_witness :
  resolveMediaWikilink
    (buildNoteLookupMaps [mkEntry "a/Img.png" "Img.png" "a" "image" [];
                          mkEntry "b/img.png" "img.png" "b" "image" []]) "IMG.PNG"
    = Some "a/Img.png" /\
  resolveMediaWikilink
    (buildNoteLookupMaps [mkEntry "a/Img.png" "Img.png" "a" "image" []]) "other.png" = None.
Proof.
  split.
  - refine (proj2 (proj1 resolveMedia_first_wins [] [mkEntry "b/img.png" "img.png" "b" "image" []]
              (mkEntry "a/Img.png" "Img.png" "a" "image" []) "IMG.PNG" _ _ _ _));
      [reflexivity | discriminate | constructor | reflexivity].
  - apply (proj2 resolveMedia_first_wins).
    repeat constructor. intros _. vm_compute. discriminate.
Defined.

Lemma calculateNoteCounts_ok :
  forall f : folder_node, counts_ok (calculateNoteCounts f).
Proof.
  apply (folder_ind_mut (fun f => counts_ok (calculateNoteCounts f))
                        (fun m => counts_ok_l (calculateNoteCounts_l m))).
  - intros n p ch IHch ns c. destruct ch as [|k f r] eqn:Hch; simpl.
    + split; [f_equal; lia | done].
    + simpl in IHch. split; [done | exact IHch].
  - done.
  - intros k f IHf r IHr. simpl. split; assumption.
Qed.

Lemma calculateNoteCounts_l_ok (m : folders) : counts_ok_l (calculateNoteCounts_l m).
Proof.
  induction m as [|k f r IH]; simpl; [done|].
  split; [apply calculateNoteCounts_ok | exact IH].
Qed.

(** C2: in every tree built by [buildFolderTree], from any notes, any
    explicit folder list and any locale comparison, every folder node's
    [noteCount] equals the number of its direct notes plus the sum of its
    children's [noteCount]s. *)
Theorem buildFolderTree_noteCount_invariant
  (localeCompare : string -> string -> Z) (allNotes : list entry) (allFolders : list string) :
  counts_ok_l (buildFolderTree localeCompare allNotes allFolders).
Proof. unfold buildFolderTree. apply calculateNoteCounts_l_ok. Qed.

(** The spec's scenario: folders [proj], [proj/docs] and one note in
    [proj/docs] give [noteCount] 1 for both folders. *)
Example buildFolderTree_proj_docs :
  match buildFolderTree (fun _ _ => 0%Z) [mkEntry "proj/docs/a.md" "a" "proj/docs" "note" []]
          ["proj"; "proj/docs"] with
  | FCons "proj" (Folder _ "proj" (FCons "docs" (Folder _ "proj/docs" FNil [_] (Some 1)) FNil)
                   [] (Some 1)) FNil => True
  | _ => False
  end.
Proof. vm_compute. exact I. Qed.

Example history_roundtrip_ex :
  let s := hrun [RecordEdit "b" 1; Commit; Undo] (loadNote "n.md" "a" (mkHS "" "" 0 [] [] false)) in
  noteContent s = "a" /\ noteContent (redo s) = "b".
Proof. vm_compute. split; reflexivity. Qed.

Lemma commitToHistory_inv (s : hstate) : hinv s -> hinv (commitToHistory s).
Proof.
  destruct s as [cn nc sel u r p]. unfold hinv, commitToHistory; simpl.
  intros [H1 H2].
  assert (Hpush : forall x : hentry,
    (1 <= length (if (maxHistorySize <? length (app u [x]))%nat then tail (app u [x]) else app u [x]))%nat /\
    (length (if (maxHistorySize <? length (app u [x]))%nat then tail (app u [x]) else app u [x]) + 0
      <= maxHistorySize)%nat).
  { intros x. rewrite length_app. simpl.
    destruct (Nat.ltb_spec maxHistorySize (length u + 1)) as [Hlt|Hge].
    - destruct u as [|y u]; simpl in *; [lia|]. rewrite length_app in *. simpl in *. lia.
    - rewrite length_app. simpl. unfold maxHistorySize, MAX_UNDO_HISTORY in *. lia. }
  destruct (last u) as [top|].
  - destruct (String.eqb (content top) nc); simpl; [lia|]. apply Hpush.
  - apply Hpush.
Qed.

Lemma flushHistory_inv (s : hstate) : hinv s -> hinv (flushHistory s).
Proof.
  intros H. unfold flushHistory. destruct (hasPendingHistoryChanges s); [|done].
  by apply commitToHistory_inv.
Qed.

Lemma undo_inv (s : hstate) : hinv s -> hinv (undo s).
Proof.
  intros H. unfold undo. destruct (String.eqb (currentNote s) ""); [done|].
  pose proof (flushHistory_inv s H) as H1.
  destruct (flushHistory s) as [cn nc sel u r p]. unfold hinv in *. simpl in *.
  destruct (Nat.leb_spec (length u) 1); [done|].
  destruct (last u) as [cur|] eqn:E; [|done].
  apply last_Some in E as [u' ->]. rewrite removelast_last.
  destruct (last u') as [prev|] eqn:E'; [|done]. simpl.
  rewrite length_app in *. simpl in *. lia.
Qed.

Lemma redo_inv (s : hstate) : hinv s -> hinv (redo s).
Proof.
  intros H. unfold redo. destruct (String.eqb (currentNote s) ""); [done|].
  pose proof (flushHistory_inv s H) as H1.
  destruct (flushHistory s) as [cn nc sel u r p]. unfold hinv in *. simpl in *.
  destruct (last r) as [nxt|] eqn:E; [|done].
  apply last_Some in E as [r' ->]. rewrite removelast_last. simpl.
  rewrite !length_app in *. simpl in *. lia.
Qed.

Lemma hstep_inv (s : hstate) (o : hop) : hinv s -> hinv (hstep s o).
Proof.
  intros H. destruct o; simpl.
  - exact H.
  - by apply flushHistory_inv.
  - by apply flushHistory_inv.
  - by apply undo_inv.
  - by apply redo_inv.
Qed.

Lemma hrun_inv (ops : list hop) (s : hstate) : hinv s -> hinv (hrun ops s).
Proof.
  revert s. induction ops as [|o ops IH]; intros s H; simpl; [done|].
  apply IH, hstep_inv, H.
Qed.

(** C3: after a note is loaded, any sequence of edits, commits, flushes,
    undos and redos leaves the undo stack with at least one and at most
    [maxHistorySize] entries. *)
Theorem undo_stack_bounds (notePath loaded : string) (s0 : hstate) (ops : list hop) :
  let s := hrun ops (loadNote notePath loaded s0) in
  (1 <= length (undoHistory s) <= maxHistorySize)%nat.
Proof.
  simpl. assert (H : hinv (hrun ops (loadNote notePath loaded s0))).
  { apply hrun_inv. unfold hinv, loadNote, maxHistorySize, MAX_UNDO_HISTORY; simpl. lia. }
  destruct H as [H1 H2]. lia.
Qed.

(** C4: load [C0], edit to [C1 <> C0], commit: [undo] restores [C0] and a
    following [redo] restores [C1]. *)
Theorem undo_redo_roundtrip (notePath C0 C1 : string) (cursor : nat) (s0 : hstate) :
  notePath <> "" -> C1 <> C0 ->
  let s := hrun [RecordEdit C1 cursor; Commit; Undo] (loadNote notePath C0 s0) in
  noteContent s = C0 /\ noteContent (redo s) = C1.
Proof.
  intros Hp Hc. simpl.
  unfold hrun; simpl. unfold flushHistory, commitToHistory; simpl.
  destruct (String.eqb_spec C0 C1) as [E|_]; [congruence|]. simpl.
  unfold undo; simpl.
  destruct (String.eqb_spec notePath "") as [E|_]; [congruence|]. simpl.
  unfold flushHistory; simpl.
  unfold redo; simpl.
  destruct (String.eqb_spec notePath "") as [E|_]; [congruence|]. simpl.
  split; reflexivity.
Qed.

Lemma undo_redo_roundtrip_witness :
  "n.md" <> "" /\ "b" <> "a" /\
  (let s := hrun [RecordEdit "b" 1; Commit; Undo] (loadNote "n.md" "a" (mkHS "" "" 0 [] [] false)) in
   noteContent s = "a" /\ noteContent (redo s) = "b").
Proof.
  split; [discriminate|]. split; [discriminate|].
  apply undo_redo_roundtrip; discriminate.
Defined.

(** C8: [commitToHistory] pushes an entry exactly when the content differs
    from the top of the undo stack; the redo stack is cleared exactly on
    such a push (both stacks unchanged otherwise); the pending-edit flag is
    cleared in every case, also through the autosave timer and
    [flushHistory]. *)
Theorem commitToHistory_spec (s : hstate) :
  let s' := commitToHistory s in
  hasPendingHistoryChanges s' = false /\
  hasPendingHistoryChanges (flushHistory s) = false /\
  (top_matches s = true ->
     undoHistory s' = undoHistory s /\ redoHistory s' = redoHistory s) /\
  (top_matches s = false ->
     last (undoHistory s') = Some (mkH (noteContent s) (selectionStart s)) /\
     redoHistory s' = [] /\
     exists dropped : list hentry,
       app (undoHistory s) [mkH (noteContent s) (selectionStart s)] = app dropped (undoHistory s') /\
       (length dropped <= 1)%nat).
Proof.
  destruct s as [cn nc sel u r p]. unfold top_matches, flushHistory, commitToHistory; simpl.
  assert (Hpush : forall x : hentry,
    let u' := if (maxHistorySize <? length (app u [x]))%nat then tail (app u [x]) else app u [x] in
    last u' = Some x /\
    exists dropped, app u [x] = app dropped u' /\ (length dropped <= 1)%nat).
  { intros x u'. subst u'.
    destruct (Nat.ltb_spec maxHistorySize (length (app u [x]))) as [Hlt|_].
    - destruct u as [|y u]; simpl.
      + simpl in Hlt. unfold maxHistorySize, MAX_UNDO_HISTORY in Hlt. lia.
      + split; [apply last_snoc|]. exists [y]. split; [done|simpl; lia].
    - split; [apply last_snoc|]. exists []. split; [done|simpl; lia]. }
  destruct (last u) as [top|].
  - destruct (String.eqb (content top) nc) eqn:E; simpl.
    + split; [done|]. split; [destruct p; done|].
      split; [done|]. discriminate.
    + split; [done|]. split; [destruct p; done|].
      split; [discriminate|]. intros _.
      destruct (Hpush (mkH nc sel)) as [H1 H2]. split; [exact H1|]. split; [done|exact H2].
  - simpl. split; [done|]. split; [destruct p; done|].
    split; [discriminate|]. intros _.
    destruct (Hpush (mkH nc sel)) as [H1 H2]. split; [exact H1|]. split; [done|exact H2].
Qed.

Example trim_ex : trim "  ab c 	" = "ab c".
Proof. reflexivity. Qed.

(** C5 (counterexample): the user types ["a"], the search fires, the user
    types ["ab"], the search fires again; the response for ["ab"] arrives
    first and then the one for ["a"].  The stale ["a"] response is applied
    and overwrites the results of the current query ["ab"]. *)
Lemma stale_search_response_overwrites :
  let srv := fun q => [mkHit q ""] in
  let s4 := frun srv [SetQuery "a"; Fire; SetQuery "ab"; Fire; Arrive 1] fstate0 in
  let s5 := arrive srv 0 s4 in
  (inflight s4 !! 0 : option (string * bool)) = Some ("a", false) /\
  searchQuery s4 = "ab" /\
  searchResults s4 = [HitResult (mkHit "ab" "")] /\
  searchQuery s5 = "ab" /\
  searchResults s5 = [HitResult (mkHit "a" "")].
Proof. vm_compute. repeat split. Qed.

(** C5 (amended): a response is applied when it arrives, whatever the
    current query: the results become the hits the collaborator returned
    for the query the request was issued with (filtered by the current tag
    selection when tags were selected at issue time), and the current
    query is left as it is. *)
Theorem search_response_applied_on_arrival
  (search : string -> list hit) (s : fstate) (k : nat) (q : string) (tf : bool) :
  (inflight s !! k : option (string * bool)) = Some (q, tf) ->
  searchQuery (arrive search k s) = searchQuery s /\
  (tf = false -> searchResults (arrive search k s) = map HitResult (search q)) /\
  (tf = true -> searchResults (arrive search k s) =
     map HitResult (List.filter (fun h =>
       match List.find (fun n => String.eqb (path n) (hpath h)) (allNotes s) with
       | Some n => noteMatchesTags (selectedTags s) n
       | None => false
       end) (search q))) /\
  (forall r, In r (searchResults (arrive search k s)) ->
     exists h, r = HitResult h /\ In h (search q)).
Proof.
  intros Hk. unfold arrive. rewrite Hk. simpl.
  split; [done|]. split; [|split].
  - intros ->. reflexivity.
  - intros ->. reflexivity.
  - intros r Hr. apply in_map_iff in Hr as [h [<- Hh]]. exists h. split; [done|].
    destruct tf; [|exact Hh]. apply filter_In in Hh as [Hh _]. exact Hh.
Qed.

Lemma search_response_applied_on_arrival_witness :
  (inflight (mkFS "ab" [] [] [] true false [("a", false)]) !! 0 : option (string * bool))
    = Some ("a", false) /\
  searchResults (arrive (fun q => [mkHit q ""]) 0 (mkFS "ab" [] [] [] true false [("a", false)]))
    = [HitResult (mkHit "a" "")].
Proof.
  split; [reflexivity|].
  exact (proj1 (proj2 (search_response_applied_on_arrival (fun q => [mkHit q ""])
           (mkFS "ab" [] [] [] true false [("a", false)]) 0 "a" false eq_refl)) eq_refl).
Defined.

Lemma noteMatchesTags_superset (selected : list string) (n : entry) :
  selected <> [] -> noteMatchesTags selected n = tags_superset selected n.
Proof.
  intros Hne. unfold noteMatchesTags, tags_superset.
  destruct selected as [|t0 sel]; [congruence|].
  destruct (tags n) as [|x xs] eqn:Ht.
  - symmetry. apply bool_decide_eq_false_2. intros Hs.
    specialize (Hs t0 ltac:(left)). set_solver.
  - rewrite <- Ht. apply eq_bool_prop_intro. rewrite Is_true_true, bool_decide_spec.
    rewrite forallb_forall. split.
    + intros H t Ht'. apply list_elem_of_In in Ht'. specialize (H t Ht').
      apply existsb_exists in H as [y [Hy Ey]]. apply String.eqb_eq in Ey. subst y.
      by apply list_elem_of_In.
    + intros H t Ht'. apply existsb_exists. exists t. split; [|apply String.eqb_refl].
      apply list_elem_of_In, H, list_elem_of_In, Ht'.
Qed.

(** C9: with tags selected and no search text, [applyFilters] sets the
    results to the flat list, in collection order, of the note entries
    whose tags include every selected tag. *)
Theorem tag_only_filter_superset (s : fstate) :
  selectedTags s <> [] -> trim (searchQuery s) = "" ->
  searchResults (applyFilters s) =
    map NoteResult (List.filter (fun n => is_note n && tags_superset (selectedTags s) n) (allNotes s)) /\
  isSearching (applyFilters s) = false.
Proof.
  intros Hsel Hq. unfold applyFilters, hasTextSearch, hasTagFilter. rewrite Hq.
  assert (Hl : (0 <? length (selectedTags s))%nat = true).
  { destruct (selectedTags s); [congruence|reflexivity]. }
  rewrite Hl. change (0 <? String.length "")%nat with false. cbn [negb andb].
  unfold with_results. cbn [searchResults isSearching].
  split; [|done]. f_equal. apply filter_ext. intros n.
  by rewrite noteMatchesTags_superset.
Qed.

(** The spec's scenario: selected [{work, urgent}], notes tagged [[work]]
    and [[work, urgent]]: only the second matches. *)
Lemma tag_only_filter_superset_witness :
  let n1 := mkEntry "a.md" "a" "" "note" ["work"] in
  let n2 := mkEntry "b.md" "b" "" "note" ["work"; "urgent"] in
  let s := mkFS "" ["work"; "urgent"] [n1; n2] [] false false [] in
  searchResults (applyFilters s) = [NoteResult n2].
Proof.
  intros n1 n2 s.
  rewrite (proj1 (tag_only_filter_superset s ltac:(discriminate) eq_refl)).
  vm_compute. reflexivity.
Defined.

Example stripFrontmatter_ex :
  stripFrontmatter ("---" ++ nl ++ "tags: [a]" ++ nl ++ "---" ++ nl ++ nl ++ "Body") = "Body".
Proof. reflexivity. Qed.

(** Whenever the pipeline maps the empty text to the empty string, a
    front-matter-only note is rendered by the pipeline on every call. *)
Lemma render_frontmatter_only_reruns (rest : string -> string) (n : nat) :
  rest "" = "" ->
  let t := "---" ++ nl ++ "---" in
  let r1 := renderedMarkdown rest t (rstate_cleared n) in
  let r2 := renderedMarkdown rest t (snd r1) in
  fst r1 = "" /\ fst r2 = "" /\ pipelineRuns (snd r2) = S (pipelineRuns (snd r1)).
Proof.
  intros H. cbv zeta. unfold renderedMarkdown.
  replace (stripFrontmatter ("---" ++ nl ++ "---")) with "" by reflexivity.
  rewrite H. cbn. rewrite ?H. repeat split.
Qed.

(** C7 (counterexample): a note consisting only of a front-matter block
    renders to the empty string; the empty cached value is taken for "no
    cache", so the second render with unchanged text runs the pipeline
    again. *)
Lemma render_cache_miss_on_empty_html :
  let t := "---" ++ nl ++ "---" in
  let r1 := renderedMarkdown markedLike t (rstate_cleared 0) in
  let r2 := renderedMarkdown markedLike t (snd r1) in
  fst r1 = "" /\ fst r2 = "" /\ pipelineRuns (snd r1) = 1 /\ pipelineRuns (snd r2) = 2.
Proof. vm_compute. repeat split. Qed.

(** C7 (amended): for fixed later stages, rendering is a function of the
    text, and rendering the same text twice gives the same output; the
    second call is served from the cache without running the pipeline when
    the text is empty or the output is non-empty; when the text is not
    empty and the output is the empty string, the second call runs the
    pipeline again. *)
Theorem render_twice_same_output (rest : string -> string) (t : string) (st : rstate) :
  cache_ok rest st ->
  let r1 := renderedMarkdown rest t st in
  let r2 := renderedMarkdown rest t (snd r1) in
  fst r1 = render_pure rest t /\ fst r2 = fst r1 /\
  (t = "" \/ fst r1 <> "" -> snd r2 = snd r1) /\
  (t <> "" -> fst r1 = "" -> pipelineRuns (snd r2) = S (pipelineRuns (snd r1))).
Proof.
  intros Hc. cbv zeta.
  assert (Hrerun : t <> "" -> fst (renderedMarkdown rest t st) = "" ->
    pipelineRuns (snd (renderedMarkdown rest t (snd (renderedMarkdown rest t st)))) =
    S (pipelineRuns (snd (renderedMarkdown rest t st)))).
  { intros Ht E. unfold renderedMarkdown in *.
    apply String.eqb_neq in Ht. rewrite Ht in *.
    destruct (String.eqb t (lastRenderedContent st) && negb (String.eqb (cachedRenderedHTML st) ""))
      eqn:Hhit; cbn [fst snd] in *.
    - apply andb_true_iff in Hhit as [_ Hne]. rewrite E in Hne. discriminate.
    - cbn [lastRenderedContent cachedRenderedHTML pipelineRuns].
      rewrite String.eqb_refl, E. reflexivity. }
  assert (Hre : forall A B C D : Prop, (A /\ B /\ C) /\ D -> A /\ B /\ C /\ D) by tauto.
  apply Hre. split; [|exact Hrerun]. clear Hre Hrerun.
  unfold renderedMarkdown, render_pure.
  destruct (String.eqb_spec t "") as [->|Ht]; cbn -[stripFrontmatter].
  - repeat split.
  - destruct (String.eqb_spec t (lastRenderedContent st)) as [Hl|Hl];
      destruct (String.eqb_spec (cachedRenderedHTML st) "") as [He|He];
      cbn -[stripFrontmatter].
    + rewrite String.eqb_refl. cbn -[stripFrontmatter].
      destruct (String.eqb_spec (rest (stripFrontmatter t)) "") as [E|E];
        cbn -[stripFrontmatter].
      * split; [done|]. split; [done|]. intros [?|?]; congruence.
      * repeat split.
    + destruct Hc as [Hc|Hc]; [congruence|]. rewrite <- Hl in Hc.
      rewrite <- Hl, String.eqb_refl. cbn -[stripFrontmatter].
      destruct (String.eqb_spec (cachedRenderedHTML st) "") as [E|_]; [congruence|].
      repeat split. exact Hc.
    + rewrite String.eqb_refl. cbn -[stripFrontmatter].
      destruct (String.eqb_spec (rest (stripFrontmatter t)) "") as [E|E];
        cbn -[stripFrontmatter].
      * split; [done|]. split; [done|]. intros [?|?]; congruence.
      * repeat split.
    + rewrite String.eqb_refl. cbn -[stripFrontmatter].
      destruct (String.eqb_spec (rest (stripFrontmatter t)) "") as [E|E];
        cbn -[stripFrontmatter].
      * split; [done|]. split; [done|]. intros [?|?]; congruence.
      * repeat split.
Qed.

Lemma render_twice_same_output_witness :
  cache_ok markedLike (rstate_cleared 0) /\
  (let r1 := renderedMarkdown markedLike "# Title" (rstate_cleared 0) in
   let r2 := renderedMarkdown markedLike "# Title" (snd r1) in
   fst r1 = render_pure markedLike "# Title" /\ fst r2 = fst r1 /\
   ("# Title" = "" \/ fst r1 <> "" -> snd r2 = snd r1) /\
   ("# Title" <> "" -> fst r1 = "" -> pipelineRuns (snd r2) = S (pipelineRuns (snd r1)))).
Proof.
  split; [left; reflexivity|].
  apply render_twice_same_output. left; reflexivity.
Defined.

Example renderNoteWikilink_broken_ex :
  renderNoteWikilink (fun _ => false) " missing " None =
  "<a href=" ++ dq ++ "missing" ++ dq ++ " class=" ++ dq ++ "wikilink-broken" ++ dq ++
  " data-wikilink=" ++ dq ++ "true" ++ dq ++ ">missing</a>".
Proof. reflexivity. Qed.

Lemma escapeHref_no_quote (t : string) :
  (forall i, String.get i t <> Some (ascii_of_nat 34)) -> escapeHref t = t.
Proof.
  unfold escapeHref. induction t as [|c r IH]; intros H; simpl; [done|].
  destruct (Ascii.eqb_spec c (ascii_of_nat 34)) as [->|Hc].
  - exfalso. apply (H 0). reflexivity.
  - f_equal. apply IH. intros i. apply (H (S i)).
Qed.

(** C10: a note wikilink whose (trimmed) target starts with ['#'] is
    emitted without the broken-link class, whatever the index answers, and
    its address is the whole target, anchor included, with only the double
    quote percent-encoded (so exactly the target when it has none). *)
Theorem anchor_only_wikilink_resolved
  (exists_ : string -> bool) (target : string) (displayText : option string) :
  String.prefix "#" (trim target) = true ->
  (exists safeText,
     renderNoteWikilink exists_ target displayText =
     wikilink_anchor (escapeHref (trim target)) "" safeText) /\
  ((forall i, String.get i (trim target) <> Some (ascii_of_nat 34)) ->
     escapeHref (trim target) = trim target).
Proof.
  intros Hp. split; [|apply escapeHref_no_quote].
  unfold renderNoteWikilink.
  destruct (trim target) as [|c r] eqn:Ht; [discriminate|].
  assert (Hi : String.index 0 "#" (String c r) = Some 0).
  { simpl. simpl in Hp. rewrite Hp. reflexivity. }
  rewrite Hi. simpl. eexists. reflexivity.
Qed.

Lemma anchor_only_wikilink_resolved_witness :
  String.prefix "#" (trim " #Heading ") = true /\
  exists safeText,
    renderNoteWikilink (fun _ => false) " #Heading " None =
    wikilink_anchor (escapeHref (trim " #Heading ")) "" safeText.
Proof.
  split; [reflexivity|].
  exact (proj1 (anchor_only_wikilink_resolved (fun _ => false) " #Heading " None eq_refl)).
Defined.

Example anchor_only_wikilink_ex :
  renderNoteWikilink (fun _ => false) " #Heading " None =
  "<a href=" ++ dq ++ "#Heading" ++ dq ++ " data-wikilink=" ++ dq ++ "true" ++ dq ++ ">#Heading</a>".
Proof. reflexivity. Qed.

(* ------------------------------------------------------------------ *)
(** ** Further properties of the note index *)

Lemma toLowerCase_app (a b : string) :
  toLowerCase (a ++ b) = toLowerCase a ++ toLowerCase b.
Proof. induction a as [|c r IH]; simpl; [done|]. by rewrite IH. Qed.

Lemma add_entry_idx_ok (L : lookup) (n : entry) : idx_ok L -> idx_ok (add_entry L n).
Proof.
  intros [HP HN]. unfold add_entry.
  destruct (negb (is_note n)).
  - case_match; [split; done|]. split; simpl; done.
  - split; simpl; intros k Hk.
    + rewrite !elem_of_union, !elem_of_singleton in Hk.
      destruct Hk as [->|[->|Hk]].
      * rewrite <- stripMd_lower. set_solver.
      * set_solver.
      * specialize (HP k Hk). set_solver.
    + rewrite !elem_of_union, !elem_of_singleton in Hk.
      destruct Hk as [->|[->|Hk]]; [set_solver|set_solver|].
      specialize (HN k Hk). set_solver.
Qed.

Lemma build_idx_ok (l : list entry) : idx_ok (buildNoteLookupMaps l).
Proof.
  unfold buildNoteLookupMaps.
  assert (H0 : idx_ok empty_lookup) by (split; simpl; set_solver).
  revert H0. generalize empty_lookup. induction l as [|n l IH]; intros L HL; simpl; [done|].
  apply IH, add_entry_idx_ok, HL.
Qed.

Lemma has_true (s : gset string) (k : string) : has s k = true <-> k ∈ s.
Proof. unfold has. apply bool_decide_eq_true. Qed.

(** The existence check through the lowercase maps only. *)
Lemma wikiLinkExists_lower_only (L : lookup) (t : string) :
  idx_ok L ->
  wikiLinkExists L t =
    has (byPathLower L) (toLowerCase t) || has (byPathLower L) (toLowerCase t ++ ".md") ||
    has (byNameLower L) (toLowerCase t) ||
    has (byEndPath L) ("/" ++ toLowerCase t) || has (byEndPath L) ("/" ++ toLowerCase t ++ ".md").
Proof.
  intros [HP HN]. unfold wikiLinkExists.
  destruct (has (byPath L) t) eqn:E1.
  { apply has_true, HP in E1. apply has_true in E1. rewrite E1. by rewrite !orb_true_r. }
  destruct (has (byPath L) (t ++ ".md")) eqn:E2.
  { apply has_true, HP in E2. rewrite toLowerCase_app in E2.
    change (toLowerCase ".md") with ".md" in E2. apply has_true in E2. rewrite E2. by rewrite !orb_true_r. }
  destruct (has (byName L) t) eqn:E5.
  { apply has_true, HN in E5. apply has_true in E5. rewrite E5. by rewrite !orb_true_r. }
  simpl. by rewrite orb_false_r.
Qed.

(** X1: for 7-bit ASCII note paths, note names and link targets, the
    existence check after a build is case-insensitive: two targets with the
    same lowercase form get the same answer.  (Outside ASCII the JavaScript
    lowercasing depends on context, and the property fails.) *)
Theorem wikiLinkExists_case_insensitive (l : list entry) (t t' : string) :
  Forall (fun e => is_ascii7 (path e) = true /\ is_ascii7 (name e) = true) l ->
  is_ascii7 t = true -> is_ascii7 t' = true ->
  toLowerCase t = toLowerCase t' ->
  wikiLinkExists (buildNoteLookupMaps l) t = wikiLinkExists (buildNoteLookupMaps l) t'.
Proof.
  intros _ _ _ H. rewrite !wikiLinkExists_lower_only by apply build_idx_ok. by rewrite H.
Qed.

Lemma wikiLinkExists_case_insensitive_witness :
  is_ascii7 "Note.md" = true /\ is_ascii7 "NOTE" = true /\ is_ascii7 "note" = true /\
  toLowerCase "NOTE" = toLowerCase "note" /\
  wikiLinkExists (buildNoteLookupMaps [mkEntry "Note.md" "Note" "" "note" []]) "NOTE" =
  wikiLinkExists (buildNoteLookupMaps [mkEntry "Note.md" "Note" "" "note" []]) "note".
Proof.
  split; [reflexivity|]. split; [reflexivity|]. split; [reflexivity|].
  split; [reflexivity|]. apply wikiLinkExists_case_insensitive.
  - repeat constructor.
  - reflexivity.
  - reflexivity.
  - reflexivity.
Defined.

Lemma fold_note_maps (l : list entry) (L L' : lookup) :
  note_maps L = note_maps L' ->
  note_maps (fold_left add_entry l L) = note_maps (fold_left add_entry (List.filter is_note l) L').
Proof.
  revert L L'. induction l as [|n l IH]; intros L L' H; simpl; [done|].
  destruct (is_note n) eqn:En; simpl.
  - apply IH. unfold add_entry. rewrite En. simpl.
    unfold note_maps in *. simpl. injection H as H1 H2 H3 H4 H5. by rewrite H1, H2, H3, H4, H5.
  - apply IH. unfold add_entry. rewrite En. simpl. case_match; [done|]. unfold note_maps in *. done.
Qed.

Lemma fold_media (l : list entry) (L L' : lookup) :
  mediaLookup L = mediaLookup L' ->
  mediaLookup (fold_left add_entry l L) =
  mediaLookup (fold_left add_entry (List.filter (fun e => negb (is_note e)) l) L').
Proof.
  revert L L'. induction l as [|n l IH]; intros L L' H; simpl; [done|].
  destruct (is_note n) eqn:En; simpl.
  - apply IH. unfold add_entry. rewrite En. simpl. done.
  - apply IH. unfold add_entry. rewrite En. simpl. rewrite H.
    case_match; simpl; done.
Qed.

(** X2: media entries never make a note link exist, and notes never make
    a media name resolve: the existence check only depends on the note
    entries, media resolution only on the other entries. *)
Theorem index_notes_media_separate (l : list entry) (t m : string) :
  wikiLinkExists (buildNoteLookupMaps l) t =
    wikiLinkExists (buildNoteLookupMaps (List.filter is_note l)) t /\
  resolveMediaWikilink (buildNoteLookupMaps l) m =
    resolveMediaWikilink (buildNoteLookupMaps (List.filter (fun e => negb (is_note e)) l)) m.
Proof.
  split.
  - pose proof (fold_note_maps l empty_lookup empty_lookup eq_refl) as H.
    unfold buildNoteLookupMaps, wikiLinkExists, note_maps in *.
    injection H as H1 H2 H3 H4 H5. by rewrite H1, H2, H3, H4, H5.
  - pose proof (fold_media l empty_lookup empty_lookup eq_refl) as H.
    unfold buildNoteLookupMaps, resolveMediaWikilink in *. by rewrite H.
Qed.

(* ------------------------------------------------------------------ *)
(** ** Further properties of the folder tree *)

Lemma fl_set_total (k : string) (v : folder_node) (m : folders) :
  total_l (fl_set k v m) + tot_get k m = total_l m + total_f v.
Proof.
  unfold tot_get. induction m as [|k' n r IH]; simpl; [lia|].
  destruct (String.eqb k k'); simpl; lia.
Qed.

Lemma get_or_new_total (k p : string) (m : folders) :
  total_f (get_or_new k p m) = tot_get k m.
Proof. unfold get_or_new, tot_get. by destruct (fl_get k m). Qed.

Lemma total_f_split (f : folder_node) :
  total_f f = length (notes f) + total_l (children f).
Proof. by destruct f. Qed.

Lemma seed_folder_total (parts seen : list string) (cur : folders) :
  total_l (seed_folder cur seen parts) = total_l cur.
Proof.
  revert seen cur. induction parts as [|p rest IH]; intros seen cur; simpl; [done|].
  set (node := get_or_new p (join_slash (app seen [p])) cur).
  pose proof (fl_set_total p (set_children node (seed_folder (children node) (app seen [p]) rest)) cur) as H.
  pose proof (get_or_new_total p (join_slash (app seen [p])) cur) as Hn. fold node in Hn.
  pose proof (total_f_split node) as Hs.
  assert (total_f (set_children node (seed_folder (children node) (app seen [p]) rest))
          = length (notes node) + total_l (children node)) as Hc.
  { destruct node. simpl. rewrite IH. done. }
  lia.
Qed.

Lemma place_note_total (parts seen : list string) (cur : folders) (e : entry) :
  parts <> [] -> total_l (place_note cur seen parts e) = S (total_l cur).
Proof.
  revert seen cur. induction parts as [|p rest IH]; intros seen cur Hne; [done|]. simpl.
  set (node := get_or_new p (join_slash (app seen [p])) cur).
  pose proof (get_or_new_total p (join_slash (app seen [p])) cur) as Hn. fold node in Hn.
  destruct rest as [|q rest'].
  - pose proof (fl_set_total p (push_note node e) cur) as H.
    assert (total_f (push_note node e) = S (total_f node)).
    { destruct node. simpl. rewrite length_app. simpl. lia. }
    lia.
  - pose proof (fl_set_total p (set_children node
                  (place_note (children node) (app seen [p]) (q :: rest') e)) cur) as H.
    assert (total_f (set_children node (place_note (children node) (app seen [p]) (q :: rest') e))
            = S (total_f node)) as Hc.
    { pose proof (IH (app seen [p]) (children node) ltac:(done)) as Hp.
      destruct node. cbn [set_children total_f children] in *. lia. }
    lia.
Qed.

Lemma splitOn_nonempty (c : ascii) (s : string) : splitOn c s <> [].
Proof.
  induction s as [|a r IH]; simpl; [done|].
  destruct (Ascii.eqb a c); [done|]. destruct (splitOn c r); done.
Qed.

Lemma add_note_to_tree_total (t : folders) (e : entry) :
  total_l (add_note_to_tree t e) = S (total_l t).
Proof.
  unfold add_note_to_tree. destruct (String.eqb (folder e) "").
  - pose proof (fl_set_total root_key (push_note (get_or_new root_key "" t) e) t) as H.
    pose proof (get_or_new_total root_key "" t) as Hn.
    assert (total_f (push_note (get_or_new root_key "" t) e)
            = S (total_f (get_or_new root_key "" t))).
    { destruct (get_or_new root_key "" t). simpl. rewrite length_app. simpl. lia. }
    lia.
  - apply place_note_total, splitOn_nonempty.
Qed.

Section FolderTotals.
Variable localeCompare : string -> string -> Z.

Lemma insert_sorted_length (x : entry) (l : list entry) :
  length (insert_sorted localeCompare x l) = S (length l).
Proof.
  induction l as [|y r IH]; simpl; [done|].
  destruct (0 <? cmp_name localeCompare y x)%Z; simpl; [done|]. by rewrite IH.
Qed.

Lemma sort_notes_stable_length (l : list entry) :
  length (sort_notes_stable localeCompare l) = length l.
Proof.
  unfold sort_notes_stable.
  assert (forall acc, length (fold_left (fun acc x => insert_sorted localeCompare x acc) l acc)
                      = length l + length acc) as H.
  { induction l as [|x r IH]; intros acc; simpl; [done|].
    rewrite IH, insert_sorted_length. lia. }
  rewrite H. simpl. lia.
Qed.

Lemma sort_root_total (t : folders) : total_l (sort_root localeCompare t) = total_l t.
Proof.
  unfold sort_root. destruct (fl_get root_key t) as [[n p ch ns c]|] eqn:E; [|done].
  pose proof (fl_set_total root_key (Folder n p ch (sort_notes_stable localeCompare ns) c) t) as H.
  unfold tot_get in H. rewrite E in H. simpl in H.
  rewrite sort_notes_stable_length in H. lia.
Qed.

Lemma sortNotes_total :
  forall f : folder_node, total_f (sortNotes localeCompare f) = total_f f.
Proof.
  apply (folder_ind_mut (fun f => total_f (sortNotes localeCompare f) = total_f f)
                        (fun m => total_l (sortNotes_l localeCompare m) = total_l m)).
  - intros n p ch IHch ns c. simpl. rewrite IHch.
    destruct (0 <? length ns)%nat; [rewrite sort_notes_stable_length|]; done.
  - done.
  - intros k f IHf r IHr. simpl. lia.
Qed.

Lemma sortNotes_l_total (m : folders) : total_l (sortNotes_l localeCompare m) = total_l m.
Proof. induction m as [|k f r IH]; simpl; [done|]. rewrite sortNotes_total. lia. Qed.
End FolderTotals.

Lemma calculateNoteCounts_total :
  forall f : folder_node, total_f (calculateNoteCounts f) = total_f f.
Proof.
  apply (folder_ind_mut (fun f => total_f (calculateNoteCounts f) = total_f f)
                        (fun m => total_l (calculateNoteCounts_l m) = total_l m)).
  - intros n p ch IHch ns c. destruct ch as [|k f r]; simpl; [done|].
    simpl in IHch. lia.
  - done.
  - intros k f IHf r IHr. simpl. lia.
Qed.

Lemma calculateNoteCounts_l_total (m : folders) :
  total_l (calculateNoteCounts_l m) = total_l m.
Proof. induction m as [|k f r IH]; simpl; [done|]. rewrite calculateNoteCounts_total. lia. Qed.

Lemma counts_ok_total :
  forall f : folder_node, counts_ok f -> noteCount f = Some (total_f f).
Proof.
  apply (folder_ind_mut (fun f => counts_ok f -> noteCount f = Some (total_f f))
                        (fun m => counts_ok_l m -> count_of m = total_l m)).
  - intros n p ch IHch ns c [Hc Hch]. simpl. rewrite Hc, IHch by done. done.
  - done.
  - intros k f IHf r IHr [Hf Hr]. simpl. rewrite IHf, IHr by done. done.
Qed.

Lemma counts_ok_l_total (m : folders) : counts_ok_l m -> count_of m = total_l m.
Proof.
  induction m as [|k f r IH]; simpl; [done|]. intros [Hf Hr].
  rewrite (counts_ok_total f Hf), IH by done. done.
Qed.

(** X3: no note is lost or counted twice: the [noteCount]s of the top
    level of the tree (the [__root__] bucket included) add up to the
    number of notes given to [buildFolderTree], whatever the explicit
    folder list. *)
Theorem buildFolderTree_counts_all_notes
  (localeCompare : string -> string -> Z) (allNotes : list entry) (allFolders : list string) :
  count_of (buildFolderTree localeCompare allNotes allFolders) = length allNotes.
Proof.
  unfold buildFolderTree. rewrite (counts_ok_l_total _ (calculateNoteCounts_l_ok _)).
  rewrite calculateNoteCounts_l_total, sortNotes_l_total, sort_root_total.
  assert (forall t, total_l (fold_left add_note_to_tree allNotes t) = length allNotes + total_l t) as H.
  { induction allNotes as [|e r IH]; intros t; simpl; [done|].
    rewrite IH, add_note_to_tree_total. lia. }
  rewrite H.
  assert (forall t, total_l (fold_left (fun t fp => seed_folder t [] (splitOn slash fp)) allFolders t)
                    = total_l t) as H2.
  { induction allFolders as [|fp r IH]; intros t; simpl; [done|].
    rewrite IH, seed_folder_total. done. }
  rewrite H2. simpl. lia.
Qed.

(* ------------------------------------------------------------------ *)
(** ** Further properties of the history manager *)

Lemma snoc_of_length {A} (l : list A) :
  (1 <= length l)%nat -> exists u x, l = app u [x].
Proof.
  destruct l as [|a r] using rev_ind; simpl; [lia|]. intros _. by exists r, a.
Qed.

Lemma flushHistory_idle (s : hstate) :
  hasPendingHistoryChanges s = false -> flushHistory s = s.
Proof. unfold flushHistory. by intros ->. Qed.

(** X4: with no edit pending, [redo] right after an [undo] that moved
    (at least two entries on the undo stack) puts both stacks back as they
    were and shows the top entry's content again. *)
Theorem undo_then_redo_restores (s : hstate) (top : hentry) :
  currentNote s <> "" -> hasPendingHistoryChanges s = false ->
  (2 <= length (undoHistory s))%nat -> last (undoHistory s) = Some top ->
  let s' := redo (undo s) in
  undoHistory s' = undoHistory s /\ redoHistory s' = redoHistory s /\
  noteContent s' = content top.
Proof.
  intros Hn Hp Hl Ht. simpl.
  destruct s as [cn c sel U R p]; simpl in *. subst p.
  apply last_Some in Ht as [u ->]. apply String.eqb_neq in Hn.
  rewrite length_app in Hl. simpl in Hl.
  destruct (snoc_of_length u ltac:(lia)) as [u0 [prev ->]].
  unfold undo. cbn [currentNote]. rewrite Hn.
  unfold flushHistory; simpl.
  destruct (Nat.leb_spec (length ((u0 ++ [prev]) ++ [top])) 1) as [Hle|_].
  { rewrite !length_app in Hle. simpl in Hle. lia. }
  rewrite last_snoc, removelast_last, last_snoc.
  unfold redo, flushHistory. simpl.
  rewrite Hn.
  rewrite last_snoc, removelast_last. done.
Qed.

Lemma undo_then_redo_restores_witness :
  let s := mkHS "n.md" "b" 1 [mkH "a" 0; mkH "b" 1] [] false in
  (currentNote s <> "" /\ hasPendingHistoryChanges s = false /\
   (2 <= length (undoHistory s))%nat /\ last (undoHistory s) = Some (mkH "b" 1)) /\
  (undoHistory (redo (undo s)) = undoHistory s /\ redoHistory (redo (undo s)) = redoHistory s /\
   noteContent (redo (undo s)) = content (mkH "b" 1)).
Proof.
  simpl. split; [repeat split; [discriminate|lia] |].
  apply (undo_then_redo_restores (mkHS "n.md" "b" 1 [mkH "a" 0; mkH "b" 1] [] false) (mkH "b" 1));
    simpl; [discriminate|reflexivity|lia|reflexivity].
Defined.

(** X5: with no edit pending and something to redo, [undo] right after
    [redo] puts both stacks back as they were and shows the content of the
    entry that was on top of the undo stack before the [redo] (which need
    not be the content shown before the [redo]). *)
Theorem redo_then_undo_restores (s : hstate) (top : hentry) :
  currentNote s <> "" -> hasPendingHistoryChanges s = false ->
  redoHistory s <> [] -> last (undoHistory s) = Some top ->
  let s' := undo (redo s) in
  undoHistory s' = undoHistory s /\ redoHistory s' = redoHistory s /\
  noteContent s' = content top.
Proof.
  intros Hn Hp Hr Ht. simpl.
  destruct (snoc_of_length (redoHistory s)) as [r [nxt Er]].
  { destruct (redoHistory s); [done|simpl; lia]. }
  apply last_Some in Ht as [u Eu].
  unfold redo. destruct (String.eqb_spec (currentNote s) "") as [|_]; [done|].
  rewrite flushHistory_idle by done. rewrite Er, last_snoc, removelast_last.
  unfold undo. simpl.
  destruct (String.eqb_spec (currentNote s) "") as [|_]; [done|].
  rewrite flushHistory_idle by (simpl; done). simpl.
  destruct (Nat.leb_spec (length (undoHistory s ++ [nxt])) 1) as [Hle|_].
  { rewrite Eu, !length_app in Hle. simpl in Hle. lia. }
  rewrite last_snoc, removelast_last, Eu, last_snoc. simpl.
  rewrite <- Eu. done.
Qed.

Lemma redo_then_undo_restores_witness :
  let s := mkHS "n.md" "a" 0 [mkH "a" 0] [mkH "b" 1] false in
  (currentNote s <> "" /\ hasPendingHistoryChanges s = false /\
   redoHistory s <> [] /\ last (undoHistory s) = Some (mkH "a" 0)) /\
  (undoHistory (undo (redo s)) = undoHistory s /\ redoHistory (undo (redo s)) = redoHistory s /\
   noteContent (undo (redo s)) = content (mkH "a" 0)).
Proof.
  simpl. split; [repeat split; discriminate |].
  apply (redo_then_undo_restores (mkHS "n.md" "a" 0 [mkH "a" 0] [mkH "b" 1] false) (mkH "a" 0));
    simpl; [discriminate|reflexivity|discriminate|reflexivity].
Defined.

(** X6: with no edit pending, [undo] does nothing when the undo stack holds
    at most the loaded entry, and [redo] does nothing when the redo stack
    is empty; with no note open ([currentNote] empty) both do nothing. *)
Theorem undo_redo_noop_at_ends (s : hstate) :
  (hasPendingHistoryChanges s = false -> (length (undoHistory s) <= 1)%nat -> undo s = s) /\
  (hasPendingHistoryChanges s = false -> redoHistory s = [] -> redo s = s) /\
  (currentNote s = "" -> undo s = s /\ redo s = s).
Proof.
  split; [|split].
  - intros Hp Hl. unfold undo. destruct (String.eqb (currentNote s) ""); [done|].
    rewrite flushHistory_idle by done.
    destruct (Nat.leb_spec (length (undoHistory s)) 1); [done|lia].
  - intros Hp Hr. unfold redo. destruct (String.eqb (currentNote s) ""); [done|].
    rewrite flushHistory_idle by done. by rewrite Hr.
  - intros Hn. unfold undo, redo. rewrite Hn. done.
Qed.

(** X7: an edit still waiting for the autosave timer is not lost by
    [undo]: [undo] first commits it, so a [redo] right after brings the
    edited content back. *)
Theorem pending_edit_survives_undo (s : hstate) :
  currentNote s <> "" -> hasPendingHistoryChanges s = true -> top_matches s = false ->
  noteContent (redo (undo s)) = noteContent s.
Proof.
  intros Hn Hp Ht.
  assert (Hc : exists u, undoHistory (flushHistory s) = app u [mkH (noteContent s) (selectionStart s)] /\
                         redoHistory (flushHistory s) = [] /\
                         hasPendingHistoryChanges (flushHistory s) = false /\
                         currentNote (flushHistory s) = currentNote s /\
                         noteContent (flushHistory s) = noteContent s).
  { unfold flushHistory. rewrite Hp. unfold commitToHistory.
    unfold top_matches in Ht.
    assert (forall U : list hentry,
      exists u, (if (maxHistorySize <? length (app U [mkH (noteContent s) (selectionStart s)]))%nat
                 then tail (app U [mkH (noteContent s) (selectionStart s)])
                 else app U [mkH (noteContent s) (selectionStart s)])
                = app u [mkH (noteContent s) (selectionStart s)]) as Htrim.
    { intros [|x U'].
      - exists []. reflexivity.
      - destruct (maxHistorySize <? _)%nat; [by exists U' | by exists (x :: U')]. }
    destruct (last (undoHistory s)) as [t|].
    - rewrite Ht. destruct (Htrim (undoHistory s)) as [u Hu]. exists u. simpl. by rewrite Hu.
    - destruct (Htrim (undoHistory s)) as [u Hu]. exists u. simpl. by rewrite Hu. }
  destruct Hc as [u [Hu [Hr [Hp1 [Hn1 Hc1]]]]].
  unfold undo. destruct (String.eqb_spec (currentNote s) "") as [|_]; [done|].
  set (s1 := flushHistory s) in *.
  destruct (Nat.leb_spec (length (undoHistory s1)) 1) as [Hle|Hgt].
  - unfold redo. rewrite Hn1. destruct (String.eqb_spec (currentNote s) "") as [|_]; [done|].
    rewrite flushHistory_idle by done. rewrite Hr. done.
  - rewrite Hu, last_snoc, removelast_last.
    rewrite Hu, length_app in Hgt. simpl in Hgt.
    destruct (snoc_of_length u ltac:(lia)) as [u0 [prev ->]]. rewrite last_snoc.
    unfold redo. simpl. rewrite Hn1.
    destruct (String.eqb_spec (currentNote s) "") as [|_]; [done|].
    rewrite flushHistory_idle by (simpl; done). simpl. rewrite Hr. simpl. done.
Qed.

Lemma pending_edit_survives_undo_witness :
  let s := mkHS "n.md" "ab" 2 [mkH "a" 1] [] true in
  (currentNote s <> "" /\ hasPendingHistoryChanges s = true /\ top_matches s = false) /\
  noteContent (redo (undo s)) = noteContent s.
Proof.
  simpl. split; [repeat split; first [discriminate | reflexivity] |].
  apply (pending_edit_survives_undo (mkHS "n.md" "ab" 2 [mkH "a" 1] [] true));
    [discriminate|reflexivity|reflexivity].
Defined.

(* ------------------------------------------------------------------ *)
(** ** [trim] *)

Lemma las_inj (a b : string) : list_ascii_of_string a = list_ascii_of_string b -> a = b.
Proof.
  intros H. rewrite <- (string_of_list_ascii_of_string a), <- (string_of_list_ascii_of_string b).
  by rewrite H.
Qed.

Lemma las_trim_start (s : string) : list_ascii_of_string (trim_start s) = ts_l (list_ascii_of_string s).
Proof. induction s as [|c r IH]; simpl; [done|]. by destruct (is_space c). Qed.

Lemma las_rev_string (s : string) : list_ascii_of_string (rev_string s) = rev (list_ascii_of_string s).
Proof. unfold rev_string. apply list_ascii_of_string_of_list_ascii. Qed.

Lemma las_trim (s : string) :
  list_ascii_of_string (trim s) = rev (ts_l (rev (ts_l (list_ascii_of_string s)))).
Proof. unfold trim. by rewrite las_rev_string, las_trim_start, las_rev_string, las_trim_start. Qed.

Lemma ts_l_idem (l : list ascii) : ts_l (ts_l l) = ts_l l.
Proof.
  induction l as [|c r IH]; simpl; [done|].
  destruct (is_space c) eqn:E; [done|]. simpl. by rewrite E.
Qed.

Lemma ts_l_split (l : list ascii) : exists p, l = app p (ts_l l).
Proof.
  induction l as [|c r [p Hp]]; simpl; [by exists []|].
  destruct (is_space c); [exists (c :: p); simpl; by f_equal | by exists []].
Qed.

Lemma ts_l_head (l r : list ascii) (c : ascii) : ts_l l = c :: r -> is_space c = false.
Proof.
  induction l as [|d l IH]; simpl; [done|].
  destruct (is_space d) eqn:E; [apply IH|]. intros [= -> _]. done.
Qed.

Lemma ts_l_rev_ts (A : list ascii) :
  (forall c r, A = c :: r -> is_space c = false) ->
  ts_l (rev (ts_l (rev A))) = rev (ts_l (rev A)).
Proof.
  intros HA. destruct (ts_l_split (rev A)) as [P HP].
  destruct (rev (ts_l (rev A))) as [|c r] eqn:E; [done|]. simpl.
  assert (A = app (c :: r) (rev P)) as EA.
  { rewrite <- E, <- rev_app_distr, <- HP. symmetry; apply List.rev_involutive. }
  rewrite (HA c (app r (rev P)) EA). done.
Qed.

Lemma trim_idem (s : string) : trim (trim s) = trim s.
Proof.
  apply las_inj. rewrite !las_trim.
  rewrite ts_l_rev_ts by (intros c r; apply ts_l_head).
  rewrite rev_involutive. apply ts_l_rev_ts. intros c r. apply ts_l_head.
Qed.

Lemma trim_empty : trim "" = "".
Proof. reflexivity. Qed.

(** The last character of a non-empty [trim] result is no white space. *)
Lemma trim_last_char (s : string) (c : ascii) :
  last_char (trim s) = Some c -> is_space c = false.
Proof.
  assert (Hl : forall t, last_char t = Some c -> exists p, list_ascii_of_string t = app p [c]).
  { induction t as [|d r IH]; simpl; [done|].
    destruct r as [|e r'].
    - intros [= ->]. by exists [].
    - intros H. destruct (IH H) as [p Hp]. exists (d :: p). simpl in *. by rewrite Hp. }
  intros H. destruct (Hl _ H) as [p Hp]. rewrite las_trim in Hp.
  apply (f_equal (@rev ascii)) in Hp. rewrite rev_involutive, rev_app_distr in Hp. simpl in Hp.
  by apply ts_l_head in Hp.
Qed.

(* ------------------------------------------------------------------ *)
(** ** Further properties of [FilenameValidator] *)

Lemma validateFilename_valid (s t : string) :
  validateFilename s = Valid t ->
  t = trim s /\ t <> "" /\ has_forbidden t = false /\ reservedNames t = false /\
  ends_with_char "." t = false.
Proof.
  unfold validateFilename.
  destruct (String.eqb s ""); [discriminate|].
  destruct (String.eqb_spec (trim s) "") as [|Hne]; [discriminate|].
  destruct (has_forbidden (trim s)) eqn:Ef; [discriminate|].
  destruct (reservedNames (trim s)) eqn:Er; [discriminate|].
  destruct (String.prefix "." (trim s) && _); [discriminate|].
  destruct (ends_with_char "." (trim s)) eqn:Ee; [discriminate|]. simpl.
  destruct (ends_with_char " " (trim s)); [discriminate|].
  intros [= <-]. done.
Qed.

(** X8: [validateFilename] ignores surrounding white space, and a name it
    accepts is accepted again unchanged: the sanitized name is a fixed
    point.  Names ending in white space are trimmed, never refused: the
    [trailing_dot_space] error only comes from a trailing dot. *)
Theorem validateFilename_trim_stable (s t : string) :
  validateFilename (trim s) = validateFilename s /\
  (validateFilename s = Valid t -> validateFilename t = Valid t) /\
  (validateFilename s = Invalid "trailing_dot_space" -> ends_with_char "." (trim s) = true).
Proof.
  assert (Htrim : forall s, validateFilename (trim s) = validateFilename s).
  { intros s0. unfold validateFilename at 1 2.
    rewrite trim_idem.
    destruct (String.eqb_spec (trim s0) "") as [E|E];
      destruct (String.eqb_spec s0 "") as [->|]; try reflexivity.
    by rewrite trim_empty in E. }
  split; [apply Htrim|split].
  - intros Hv. pose proof (validateFilename_valid _ _ Hv) as [-> _]. by rewrite Htrim.
  - unfold validateFilename.
    destruct (String.eqb s ""); [discriminate|].
    destruct (String.eqb (trim s) ""); [discriminate|].
    destruct (has_forbidden (trim s)); [discriminate|].
    destruct (reservedNames (trim s)); [discriminate|].
    destruct (String.prefix "." (trim s) && _); [discriminate|].
    destruct (ends_with_char "." (trim s)) eqn:Ed; [done|]. simpl.
    unfold ends_with_char. destruct (last_char (trim s)) as [c|] eqn:Ec; [|discriminate].
    apply trim_last_char in Ec.
    destruct (Ascii.eqb_spec c " ") as [->|]; [discriminate|discriminate].
Qed.

Lemma validateFilename_trim_stable_witness :
  validateFilename " notes " = Valid "notes" /\ validateFilename "notes" = Valid "notes".
Proof.
  split; [reflexivity|].
  apply (proj1 (proj2 (validateFilename_trim_stable " notes " "notes"))). reflexivity.
Defined.

Lemma splitOn_nosep (c : ascii) (x : string) : has_char c x = false -> splitOn c x = [x].
Proof.
  unfold has_char. induction x as [|d r IH]; simpl; [done|].
  rewrite Ascii.eqb_sym. destruct (Ascii.eqb d c); [done|]. simpl.
  intros H. rewrite (IH H). done.
Qed.

Lemma splitOn_app_sep (c : ascii) (a b : string) :
  splitOn c (a ++ String c b) = app (splitOn c a) (splitOn c b).
Proof.
  induction a as [|d r IH]; simpl.
  - by rewrite Ascii.eqb_refl.
  - rewrite IH. destruct (Ascii.eqb d c); [done|].
    destruct (splitOn c r) as [|h t] eqn:E; [by apply splitOn_nonempty in E|]. done.
Qed.

Lemma splitOn_elems (c : ascii) (s : string) :
  Forall (fun x => has_char c x = false) (splitOn c s).
Proof.
  unfold has_char. induction s as [|d r IH]; simpl; [by repeat constructor|].
  destruct (Ascii.eqb_spec d c) as [->|Hd]; [by constructor|].
  destruct (splitOn c r) as [|h t]; [constructor; [|done]|].
  - simpl. rewrite orb_false_r. by apply Ascii.eqb_neq.
  - inversion IH as [|? ? Hh Ht]; subst. constructor; [|done].
    simpl. rewrite Hh, orb_false_r. by apply Ascii.eqb_neq.
Qed.

Lemma splitOn_concat (c : ascii) (segs : list string) :
  segs <> [] -> Forall (fun x => has_char c x = false) segs ->
  splitOn c (String.concat (String c EmptyString) segs) = segs.
Proof.
  induction segs as [|x r IH]; [done|]. intros _ Hf. inversion Hf as [|? ? Hx Hr]; subst.
  destruct r as [|y r'].
  - simpl. by apply splitOn_nosep.
  - change (String.concat (String c EmptyString) (x :: y :: r'))
      with (x ++ String c (String.concat (String c EmptyString) (y :: r'))).
    rewrite splitOn_app_sep, IH, splitOn_nosep by done. done.
Qed.

Lemma first_invalid_none (segs : list string) :
  first_invalid segs = None -> Forall (fun s => exists v, validateFilename s = Valid v) segs.
Proof.
  induction segs as [|s r IH]; simpl; [constructor|].
  destruct (validateFilename s) as [v|e] eqn:E; [|discriminate].
  intros H. constructor; [by exists v | by apply IH].
Qed.

Lemma ends_with_dot_not (t : string) :
  ends_with_char "." t = false -> t <> "." /\ t <> "..".
Proof. intros H. split; intros ->; discriminate. Qed.

(** X9: a path [validatePath] accepts has, between its slashes, only
    non-empty segments that [validateFilename] accepts (once trimmed); in
    particular no segment is [.] or [..], whatever white space surrounds
    it, and the path neither starts nor ends with a slash. *)
Theorem validatePath_segments (p t : string) :
  validatePath p = Valid t ->
  t <> "" /\
  Forall (fun seg => seg <> "" /\ validateFilename seg = Valid (trim seg) /\
                     trim seg <> "." /\ trim seg <> "..") (splitOn slash t).
Proof.
  unfold validatePath.
  destruct (String.eqb p ""); [discriminate|].
  destruct (String.eqb (trim p) ""); [discriminate|].
  set (segs := List.filter (fun s => (0 <? String.length s)%nat) (splitOn slash (trim p))).
  destruct segs as [|s0 r0] eqn:Es; [discriminate|]. rewrite <- Es.
  destruct (first_invalid segs) as [v|] eqn:Ef.
  { intros ->. destruct segs as [|s1 r1]; [discriminate|]. simpl in Ef.
    destruct (validateFilename s1); [|discriminate].
    pose proof (first_invalid_none r1) as Hr. clear -Ef. revert Ef.
    induction r1 as [|s r IH]; simpl; [discriminate|].
    destruct (validateFilename s); [apply IH|discriminate]. }
  intros [= <-].
  assert (Hne : segs <> []) by (rewrite Es; discriminate).
  assert (Hall : Forall (fun x => has_char slash x = false /\ String.length x <> 0%nat) segs).
  { unfold segs. apply Forall_forall. intros x Hx.
    apply list_elem_of_In, List.filter_In in Hx as [Hin Hlen].
    split; [|apply Nat.ltb_lt in Hlen; lia].
    pose proof (splitOn_elems slash (trim p)) as HF. rewrite Forall_forall in HF.
    by apply HF, list_elem_of_In. }
  rewrite splitOn_concat; [|done|].
  2:{ eapply Forall_impl; [exact Hall|]. intros x [? _]. done. }
  split.
  - destruct segs as [|x r]; [done|]. inversion Hall as [|? ? [_ Hx] _]; subst.
    destruct r as [|y r']; simpl.
    + intros ->. done.
    + intros E. destruct x; [done|discriminate].
  - pose proof (first_invalid_none _ Ef) as Hv.
    rewrite Forall_forall in Hv, Hall |- *. intros x Hx.
    destruct (Hv x Hx) as [v Hxv]. pose proof (validateFilename_valid _ _ Hxv) as [-> [_ [_ [_ Hd]]]].
    destruct (Hall x Hx) as [_ Hl].
    split; [intros ->; done|]. split; [done|]. by apply ends_with_dot_not.
Qed.

Lemma validatePath_segments_witness :
  validatePath "/notes//a b/" = Valid "notes/a b" /\
  (("notes/a b" <> "") /\
   Forall (fun seg => seg <> "" /\ validateFilename seg = Valid (trim seg) /\
                      trim seg <> "." /\ trim seg <> "..") (splitOn slash "notes/a b")).
Proof.
  split; [reflexivity|]. apply (validatePath_segments "/notes//a b/" "notes/a b"). reflexivity.
Defined.

(* ------------------------------------------------------------------ *)
(** ** Further properties of [toggleTag] and [toggleFavorite] *)

Lemma applyFilters_selectedTags (s : fstate) : selectedTags (applyFilters s) = selectedTags s.
Proof.
  unfold applyFilters. destruct (negb (hasTextSearch s) && negb (hasTagFilter s)); [done|].
  by destruct (hasTagFilter s && negb (hasTextSearch s)).
Qed.

Lemma existsb_eqb_elem (x : string) (l : list string) : existsb (String.eqb x) l = true <-> x ∈ l.
Proof.
  rewrite existsb_exists, list_elem_of_In. split.
  - intros [y [Hy E]]. apply String.eqb_eq in E. by subst.
  - intros H. exists x. split; [done|]. apply String.eqb_refl.
Qed.

Lemma remove_first_elem (x y : string) (l : list string) :
  NoDup l -> y ∈ remove_first x l <-> y ∈ l /\ y <> x.
Proof.
  induction l as [|z r IH]; simpl; intros Hnd; [set_solver|].
  apply NoDup_cons in Hnd as [Hz Hr].
  destruct (String.eqb_spec z x) as [->|Hzx].
  - split; [intros Hy; split; [set_solver|intros ->; done] | set_solver].
  - rewrite !elem_of_cons, IH by done. split; [|naive_solver].
    intros [->|[? ?]]; [split; [by left | done] | split; [by right | done]].
Qed.

Lemma remove_first_NoDup (x : string) (l : list string) : NoDup l -> NoDup (remove_first x l).
Proof.
  induction l as [|z r IH]; simpl; intros Hnd; [constructor|].
  pose proof Hnd as Hnd'. apply NoDup_cons in Hnd' as [Hz Hr].
  destruct (String.eqb z x); [done|]. constructor; [|by apply IH].
  rewrite remove_first_elem by done. naive_solver.
Qed.

Lemma remove_first_absent_snoc (x : string) (l : list string) :
  x ∉ l -> remove_first x (app l [x]) = l.
Proof.
  induction l as [|z r IH]; simpl; intros Hx.
  - by rewrite String.eqb_refl.
  - destruct (String.eqb_spec z x) as [->|_]; [set_solver|]. rewrite IH by set_solver. done.
Qed.

(** X10: [toggleTag] flips the selection of exactly the given tag and keeps
    the selection free of duplicates; toggling a tag that was not selected
    twice in a row gives the original selection back. *)
Theorem toggleTag_flips (tag : string) (s : fstate) :
  NoDup (selectedTags s) ->
  let l' := selectedTags (toggleTag tag s) in
  (tag ∈ l' <-> tag ∉ selectedTags s) /\
  (forall x, x <> tag -> x ∈ l' <-> x ∈ selectedTags s) /\
  NoDup l' /\
  (tag ∉ selectedTags s -> selectedTags (toggleTag tag (toggleTag tag s)) = selectedTags s).
Proof.
  intros Hnd. unfold toggleTag. rewrite !applyFilters_selectedTags. simpl.
  unfold toggle_list. destruct (existsb (String.eqb tag) (selectedTags s)) eqn:E.
  - apply existsb_eqb_elem in E.
    split; [rewrite remove_first_elem by done; naive_solver|].
    split; [intros x Hx; rewrite remove_first_elem by done; naive_solver|].
    split; [by apply remove_first_NoDup | done].
  - assert (Hn : tag ∉ selectedTags s).
    { intros Hin. apply existsb_eqb_elem in Hin. congruence. }
    split; [set_solver|]. split; [set_solver|].
    split; [apply NoDup_app; split; [done|split; [set_solver | apply NoDup_singleton]]|].
    intros _. simpl.
    replace (existsb (String.eqb tag) (app (selectedTags s) [tag])) with true.
    + by apply remove_first_absent_snoc.
    + symmetry. apply existsb_eqb_elem. set_solver.
Qed.

Lemma toggleTag_flips_witness :
  NoDup (selectedTags (mkFS "" ["a"] [] [] false false [])) /\
  let s := mkFS "" ["a"] [] [] false false [] in
  let l' := selectedTags (toggleTag "b" s) in
  ("b" ∈ l' <-> "b" ∉ selectedTags s) /\
  (forall x, x <> "b" -> x ∈ l' <-> x ∈ selectedTags s) /\
  NoDup l' /\
  ("b" ∉ selectedTags s -> selectedTags (toggleTag "b" (toggleTag "b" s)) = selectedTags s).
Proof.
  split; [apply NoDup_singleton|]. apply toggleTag_flips. apply NoDup_singleton.
Defined.

Lemma elem_of_List_filter {A} (f : A -> bool) (x : A) (l : list A) :
  x ∈ List.filter f l <-> x ∈ l /\ f x = true.
Proof. rewrite !list_elem_of_In. apply List.filter_In. Qed.

Lemma filter_neq_absent (p : string) (l : list string) :
  p ∉ l -> List.filter (fun f => negb (String.eqb f p)) l = l.
Proof.
  induction l as [|x r IH]; simpl; intros H; [done|].
  destruct (String.eqb_spec x p) as [->|_]; [set_solver|]. simpl. rewrite IH by set_solver. done.
Qed.

(** The favorites [Set] is rebuilt from the array. *)
Lemma toggleFavorite_set (notePath cur : string) (st : favstate) :
  favoritesSet st = list_to_set (favorites st) ->
  favoritesSet (toggleFavorite notePath cur st) = list_to_set (favorites (toggleFavorite notePath cur st)).
Proof.
  intros H. unfold toggleFavorite.
  destruct (String.eqb (if String.eqb notePath "" then cur else notePath) ""); [done|]. done.
Qed.

(** X11: [toggleFavorite] flips whether its path ([notePath], or the open
    note when none is given) is a favorite, leaves every other path as it
    was, keeps the [Set] in step with the array, and toggles twice back to
    the original array when the path was not a favorite; with no path at
    all it does nothing. *)
Theorem toggleFavorite_flips (notePath cur : string) (st : favstate) :
  favoritesSet st = list_to_set (favorites st) ->
  let p := if String.eqb notePath "" then cur else notePath in
  let st' := toggleFavorite notePath cur st in
  (p = "" -> st' = st) /\
  (p <> "" ->
     isFavorite st' p = negb (isFavorite st p) /\
     (forall q, q <> p -> isFavorite st' q = isFavorite st q) /\
     favoritesSet st' = list_to_set (favorites st') /\
     (isFavorite st p = false -> favorites (toggleFavorite notePath cur st') = favorites st)).
Proof.
  intros Hset p st'. unfold st', toggleFavorite. fold p.
  split; [intros ->; done|]. intros Hp.
  destruct (String.eqb_spec p "") as [|_]; [done|].
  unfold isFavorite. rewrite Hset. simpl.
  destruct (bool_decide (p ∈ (list_to_set (favorites st) : gset string))) eqn:Ein.
  - apply bool_decide_eq_true in Ein. split; [|split; [|split]].
    + apply bool_decide_eq_false. rewrite elem_of_list_to_set, elem_of_List_filter.
      intros [_ Hf]. simpl in Hf. by rewrite String.eqb_refl in Hf.
    + intros q Hq. apply bool_decide_ext.
      rewrite !elem_of_list_to_set, elem_of_List_filter. split; [naive_solver|].
      intros H. split; [done|]. simpl. apply negb_true_iff, String.eqb_neq. done.
    + done.
    + discriminate.
  - apply bool_decide_eq_false in Ein. split; [|split; [|split]].
    + apply bool_decide_eq_true. rewrite elem_of_list_to_set. set_solver.
    + intros q Hq. apply bool_decide_ext.
      rewrite !elem_of_list_to_set. set_solver.
    + done.
    + intros _. rewrite bool_decide_eq_true_2 by (rewrite elem_of_list_to_set; set_solver).
      rewrite List.filter_app. simpl. rewrite String.eqb_refl. simpl. rewrite app_nil_r.
      apply filter_neq_absent. by rewrite elem_of_list_to_set in Ein.
Qed.

Lemma toggleFavorite_flips_witness :
  favoritesSet (mkFav ["a.md"] {["a.md"]}) = list_to_set (favorites (mkFav ["a.md"] {["a.md"]})) /\
  let p := if String.eqb "" "" then "b.md" else "" in
  let st' := toggleFavorite "" "b.md" (mkFav ["a.md"] {["a.md"]}) in
  (p = "" -> st' = mkFav ["a.md"] {["a.md"]}) /\
  (p <> "" ->
     isFavorite st' p = negb (isFavorite (mkFav ["a.md"] {["a.md"]}) p) /\
     (forall q, q <> p -> isFavorite st' q = isFavorite (mkFav ["a.md"] {["a.md"]}) q) /\
     favoritesSet st' = list_to_set (favorites st') /\
     (isFavorite (mkFav ["a.md"] {["a.md"]}) p = false ->
        favorites (toggleFavorite "" "b.md" st') = favorites (mkFav ["a.md"] {["a.md"]}))).
Proof.
  split; [simpl; set_solver|]. apply toggleFavorite_flips. simpl. set_solver.
Defined.

(* ------------------------------------------------------------------ *)
(** ** Further properties of [filterQuickSwitcher] *)

Lemma List_filter_sublist {A} (f : A -> bool) (l : list A) : List.filter f l `sublist_of` l.
Proof.
  induction l as [|x r IH]; simpl; [constructor|].
  destruct (f x); [by apply sublist_skip | by apply sublist_cons].
Qed.

Lemma Forall_of_sublist {A} (P : A -> Prop) (l1 l2 : list A) :
  l1 `sublist_of` l2 -> Forall P l2 -> Forall P l1.
Proof.
  intros Hs Hf. apply sublist_subseteq in Hs. rewrite Forall_forall in Hf |- *.
  intros x Hx. by apply Hf, Hs.
Qed.

(** X12: the quick switcher lists at most ten entries, only notes (no
    media), in the order of the note list, each taken from it. *)
Theorem filterQuickSwitcher_shape (allNotes : list entry) (query : string) :
  let res := filterQuickSwitcher allNotes query in
  (length res <= 10)%nat /\ res `sublist_of` allNotes /\ Forall (fun n => is_note n = true) res.
Proof.
  simpl. unfold filterQuickSwitcher.
  set (ns := List.filter is_note allNotes).
  assert (Hns : Forall (fun n => is_note n = true) ns).
  { apply Forall_forall. intros x Hx. by apply elem_of_List_filter in Hx as [_ ?]. }
  assert (Hsub : ns `sublist_of` allNotes) by apply List_filter_sublist.
  destruct (String.eqb query "" || String.eqb (trim query) "").
  - split; [rewrite length_firstn; lia|]. split.
    + etransitivity; [apply sublist_take | exact Hsub].
    + eapply Forall_of_sublist; [apply sublist_take | exact Hns].
  - set (g := List.filter _ ns).
    assert (Hg : g `sublist_of` ns) by apply List_filter_sublist.
    split; [rewrite length_firstn; lia|]. split.
    + etransitivity; [apply sublist_take|]. etransitivity; [exact Hg | exact Hsub].
    + eapply Forall_of_sublist; [apply sublist_take|]. eapply Forall_of_sublist; [exact Hg | exact Hns].
Qed.

Lemma is_space_lower (c : ascii) : is_space (lower_char c) = is_space c.
Proof. destruct c as [[] [] [] [] [] [] [] []]; reflexivity. Qed.

Lemma las_toLowerCase (s : string) :
  list_ascii_of_string (toLowerCase s) = map lower_char (list_ascii_of_string s).
Proof. induction s as [|c r IH]; simpl; [done|]. by rewrite IH. Qed.

Lemma ts_l_map_lower (l : list ascii) : ts_l (map lower_char l) = map lower_char (ts_l l).
Proof. induction l as [|c r IH]; simpl; [done|]. rewrite is_space_lower. by destruct (is_space c). Qed.

Lemma trim_toLowerCase (s : string) : trim (toLowerCase s) = toLowerCase (trim s).
Proof.
  apply las_inj. rewrite las_trim, las_toLowerCase, las_toLowerCase, las_trim.
  by rewrite ts_l_map_lower, <- map_rev, ts_l_map_lower, <- map_rev.
Qed.

Lemma toLowerCase_eqb_empty (s : string) : String.eqb (toLowerCase s) "" = String.eqb s "".
Proof. by destruct s. Qed.

(** X13: the quick switcher ignores the case of the query: two queries
    with the same lowercase form list the same notes (a blank query
    included, which lists the first ten notes). *)
Theorem filterQuickSwitcher_case_insensitive (allNotes : list entry) (q q' : string) :
  toLowerCase q = toLowerCase q' ->
  filterQuickSwitcher allNotes q = filterQuickSwitcher allNotes q'.
Proof.
  intros H. unfold filterQuickSwitcher.
  assert (Hb : forall x, (String.eqb x "" || String.eqb (trim x) "") =
                         (String.eqb (toLowerCase x) "" || String.eqb (trim (toLowerCase x)) "")).
  { intros x. by rewrite trim_toLowerCase, !toLowerCase_eqb_empty. }
  rewrite (Hb q), (Hb q'), H. done.
Qed.

Lemma filterQuickSwitcher_case_insensitive_witness :
  toLowerCase "NoTe" = toLowerCase "note" /\
  filterQuickSwitcher [mkEntry "a/Note.md" "Note" "a" "note" []] "NoTe" =
  filterQuickSwitcher [mkEntry "a/Note.md" "Note" "a" "note" []] "note".
Proof. split; [reflexivity|]. apply filterQuickSwitcher_case_insensitive. reflexivity. Defined.

(* ------------------------------------------------------------------ *)
(** ** Escaping: [escapeHtmlAttr] and the wikilink text *)

Lemma str_app_assoc (a b c : string) : (a ++ b) ++ c = a ++ (b ++ c).
Proof.
  induction a as [|x r IH]; [reflexivity|]. exact (f_equal (String x) IH).
Qed.

Lemma str_cons_app (c : ascii) (a b : string) : String c a ++ b = String c (a ++ b).
Proof. reflexivity. Qed.

Lemma str_nil_app (b : string) : "" ++ b = b.
Proof. reflexivity. Qed.

Lemma replace_all_char_app (c : ascii) (rep a b : string) :
  replace_all_char c rep (a ++ b) = replace_all_char c rep a ++ replace_all_char c rep b.
Proof.
  induction a as [|x r IH]; [reflexivity|].
  change (String x r ++ b) with (String x (r ++ b)). simpl.
  destruct (Ascii.eqb x c); rewrite IH; [by rewrite str_app_assoc | reflexivity].
Qed.

Lemma las_app (a b : string) :
  list_ascii_of_string (a ++ b) = app (list_ascii_of_string a) (list_ascii_of_string b).
Proof.
  induction a as [|x r IH]; [reflexivity|]. exact (f_equal (cons x) IH).
Qed.

Lemma has_char_app (c : ascii) (a b : string) : has_char c (a ++ b) = has_char c a || has_char c b.
Proof. unfold has_char. by rewrite las_app, existsb_app. Qed.

Lemma html_decode_plain (c : ascii) (r : string) :
  c <> "&"%char -> html_decode (String c r) = String c (html_decode r).
Proof. intros H. destruct c as [[] [] [] [] [] [] [] []]; try reflexivity. by destruct H. Qed.

Lemma replace_other (c d : ascii) (rep : string) :
  d <> c -> replace_all_char c rep (String d "") = String d "".
Proof. intros H. simpl. apply Ascii.eqb_neq in H. by rewrite H. Qed.

Lemma escapeHtmlAttr_cons (c : ascii) (r : string) :
  escapeHtmlAttr (String c r) = escapeHtmlAttr (String c "") ++ escapeHtmlAttr r.
Proof.
  change (String c r) with (String c "" ++ r). unfold escapeHtmlAttr.
  by rewrite !replace_all_char_app.
Qed.

Lemma escapeText_cons (c : ascii) (r : string) :
  escapeText (String c r) = escapeText (String c "") ++ escapeText r.
Proof.
  change (String c r) with (String c "" ++ r). unfold escapeText.
  by rewrite !replace_all_char_app.
Qed.

(** One character of [escapeHtmlAttr]: its entity, or itself. *)
Lemma escapeHtmlAttr_char (c : ascii) :
  (c = "&"%char /\ escapeHtmlAttr (String c "") = "&amp;") \/
  (c = ascii_of_nat 34 /\ escapeHtmlAttr (String c "") = "&quot;") \/
  (c = "'"%char /\ escapeHtmlAttr (String c "") = "&#39;") \/
  (c = "<"%char /\ escapeHtmlAttr (String c "") = "&lt;") \/
  (c = ">"%char /\ escapeHtmlAttr (String c "") = "&gt;") \/
  (c <> "&"%char /\ c <> ascii_of_nat 34 /\ c <> "'"%char /\ c <> "<"%char /\ c <> ">"%char /\
   escapeHtmlAttr (String c "") = String c "").
Proof.
  destruct (Ascii.eqb_spec c "&") as [->|H1]; [by left|right].
  destruct (Ascii.eqb_spec c (ascii_of_nat 34)) as [->|H2]; [by left|right].
  destruct (Ascii.eqb_spec c "'") as [->|H3]; [by left|right].
  destruct (Ascii.eqb_spec c "<") as [->|H4]; [by left|right].
  destruct (Ascii.eqb_spec c ">") as [->|H5]; [by left|right].
  do 5 (split; [done|]). unfold escapeHtmlAttr.
  by rewrite !replace_other.
Qed.

Lemma escapeText_char (c : ascii) :
  (c = "&"%char /\ escapeText (String c "") = "&amp;") \/
  (c = "<"%char /\ escapeText (String c "") = "&lt;") \/
  (c = ">"%char /\ escapeText (String c "") = "&gt;") \/
  (c <> "&"%char /\ c <> "<"%char /\ c <> ">"%char /\ escapeText (String c "") = String c "").
Proof.
  destruct (Ascii.eqb_spec c "&") as [->|H1]; [by left|right].
  destruct (Ascii.eqb_spec c "<") as [->|H4]; [by left|right].
  destruct (Ascii.eqb_spec c ">") as [->|H5]; [by left|right].
  do 3 (split; [done|]). unfold escapeText.
  by rewrite !replace_other.
Qed.

(** X14: [escapeHtmlAttr] loses nothing: reading the attribute back
    (decoding the character references) gives the original string, and
    the result holds no double quote, single quote or angle bracket, so it
    cannot end the attribute or open a tag. *)
Theorem escapeHtmlAttr_roundtrip (s : string) :
  html_decode (escapeHtmlAttr s) = s /\
  has_char (ascii_of_nat 34) (escapeHtmlAttr s) = false /\ has_char "'" (escapeHtmlAttr s) = false /\
  has_char "<" (escapeHtmlAttr s) = false /\ has_char ">" (escapeHtmlAttr s) = false.
Proof.
  induction s as [|c r [IH1 [IH2 [IH3 [IH4 IH5]]]]]; [done|].
  rewrite escapeHtmlAttr_cons, !has_char_app, IH2, IH3, IH4, IH5, !orb_false_r.
  destruct (escapeHtmlAttr_char c) as
    [[-> ->]|[[-> ->]|[[-> ->]|[[-> ->]|[[-> ->]|[H1 [H2 [H3 [H4 [H5 ->]]]]]]]]]];
    rewrite ?str_cons_app, ?str_nil_app;
    try (simpl; rewrite IH1; repeat split; reflexivity).
  rewrite html_decode_plain, IH1 by done. unfold has_char. cbn [list_ascii_of_string existsb].
  rewrite !orb_false_r. repeat split; apply Ascii.eqb_neq; congruence.
Qed.

(** X15: the text of a rendered wikilink reads back as the link text:
    decoding [escapeText] gives the original string, and the escaped text
    holds no angle bracket, so a link text cannot inject markup. *)
Theorem escapeText_roundtrip (s : string) :
  html_decode (escapeText s) = s /\
  has_char "<" (escapeText s) = false /\ has_char ">" (escapeText s) = false.
Proof.
  induction s as [|c r [IH1 [IH2 IH3]]]; [done|].
  rewrite escapeText_cons, !has_char_app, IH2, IH3, !orb_false_r.
  destruct (escapeText_char c) as [[-> ->]|[[-> ->]|[[-> ->]|[H1 [H4 [H5 ->]]]]]];
    rewrite ?str_cons_app, ?str_nil_app;
    try (simpl; rewrite IH1; repeat split; reflexivity).
  rewrite html_decode_plain, IH1 by done. unfold has_char. cbn [list_ascii_of_string existsb].
  rewrite !orb_false_r. repeat split; apply Ascii.eqb_neq; congruence.
Qed.

(* ------------------------------------------------------------------ *)
(** ** Further properties of [getMediaType] *)

Lemma last_app_nonempty {A} (l1 l2 : list A) (d : A) :
  l2 <> [] -> List.last (app l1 l2) d = List.last l2 d.
Proof.
  intros H. induction l1 as [|x r IH]; [done|]. simpl.
  destruct (app r l2) as [|y t] eqn:E.
  - apply app_eq_nil in E as [_ ->]. done.
  - exact IH.
Qed.

Lemma last_map {A B} (f : A -> B) (l : list A) (d : A) :
  List.last (map f l) (f d) = f (List.last l d).
Proof. induction l as [|x r IH]; [done|]. simpl. destruct r; [done|exact IH]. Qed.

Lemma eqb_dot_lower (c : ascii) : Ascii.eqb (lower_char c) "." = Ascii.eqb c ".".
Proof. destruct c as [[] [] [] [] [] [] [] []]; reflexivity. Qed.

Lemma splitOn_dot_lower (s : string) :
  splitOn "."%char (toLowerCase s) = map toLowerCase (splitOn "."%char s).
Proof.
  induction s as [|c r IH]; [done|]. simpl. rewrite eqb_dot_lower, IH.
  destruct (Ascii.eqb c "."); [done|]. destruct (splitOn "."%char r); reflexivity.
Qed.

Lemma getMediaType_lower (f : string) : getMediaType (toLowerCase f) = getMediaType f.
Proof.
  assert (Hext : toLowerCase (List.last (splitOn "."%char (toLowerCase f)) "")
                 = toLowerCase (List.last (splitOn "."%char f) "")).
  { rewrite splitOn_dot_lower. change "" with (toLowerCase "") at 1.
    rewrite last_map, toLowerCase_idem. done. }
  unfold getMediaType. rewrite toLowerCase_eqb_empty, Hext. done.
Qed.

(** X16: the media type only depends on the text after the last dot, in
    any case: whatever comes before a dot never matters (so [a.png.txt] is
    no image), and two names that agree up to case get the same type. *)
Theorem getMediaType_extension_only (a b f f' : string) :
  getMediaType (a ++ "." ++ b) = getMediaType b /\
  (toLowerCase f = toLowerCase f' -> getMediaType f = getMediaType f').
Proof.
  split.
  - unfold getMediaType.
    change (a ++ "." ++ b) with (a ++ String "."%char b).
    replace (String.eqb (a ++ String "."%char b) "") with false by (by destruct a).
    rewrite splitOn_app_sep, last_app_nonempty by apply splitOn_nonempty.
    destruct (String.eqb_spec b "") as [->|_]; reflexivity.
  - intros H. by rewrite <- (getMediaType_lower f), H, getMediaType_lower.
Qed.

(* ------------------------------------------------------------------ *)
(** ** Further properties of the note wikilink rendering *)

Lemma index_hash_after (N H : string) :
  has_char "#" N = false -> String.index 0 "#" (N ++ String "#"%char H) = Some (String.length N).
Proof.
  unfold has_char. induction N as [|x r IH].
  { intros _. simpl. destruct (ascii_dec "#" "#") as [_|n]; [|congruence]. by destruct H. }
  cbn [list_ascii_of_string existsb]. intros Hx. apply orb_false_iff in Hx as [Hx Hr].
  change (String x r ++ String "#"%char H) with (String x (r ++ String "#"%char H)).
  cbn [String.index]. rewrite IH by done.
  apply Ascii.eqb_neq in Hx. unfold String.prefix.
  destruct (ascii_dec "#" x); [congruence|]. reflexivity.
Qed.

Lemma substring_prefix (N X : string) : substring 0 (String.length N) (N ++ X) = N.
Proof.
  induction N as [|x r IH]; [by destruct X|].
  change (String x r ++ X) with (String x (r ++ X)). simpl. by rewrite IH.
Qed.

(** X17: a link to a heading of a note, [[N#H]] with [N] non-empty, is
    checked against the note part [N] only: it gets the broken-link class
    exactly when [N] does not exist, whatever the heading. *)
Theorem wikilink_heading_checks_note_part
  (exists_ : string -> bool) (target N H : string) (displayText : option string) :
  trim target = N ++ "#" ++ H -> N <> "" -> has_char "#" N = false ->
  exists safeText,
    renderNoteWikilink exists_ target displayText =
    wikilink_anchor (escapeHref (trim target))
      (if exists_ N then "" else " class=" ++ dq ++ "wikilink-broken" ++ dq) safeText.
Proof.
  intros Ht HN Hh. unfold renderNoteWikilink. rewrite Ht.
  change (N ++ "#" ++ H) with (N ++ String "#"%char H).
  rewrite index_hash_after, substring_prefix by done.
  apply String.eqb_neq in HN. rewrite HN. simpl.
  eexists. reflexivity.
Qed.

Lemma wikilink_heading_checks_note_part_witness :
  (trim " Note#Intro " = "Note" ++ "#" ++ "Intro" /\ "Note" <> "" /\ has_char "#" "Note" = false) /\
  exists safeText,
    renderNoteWikilink (fun _ => false) " Note#Intro " None =
    wikilink_anchor (escapeHref (trim " Note#Intro "))
      (if (fun _ : string => false) "Note" then "" else " class=" ++ dq ++ "wikilink-broken" ++ dq)
      safeText.
Proof.
  split; [split; [reflexivity|split; [discriminate|reflexivity]]|].
  apply (wikilink_heading_checks_note_part (fun _ => false) " Note#Intro " "Note" "Intro" None);
    [reflexivity|discriminate|reflexivity].
Defined.

(* ------------------------------------------------------------------ *)
(** ** Further properties of [parseTagsFromContent] *)

Definition good_tag (t : string) : Prop := t <> "" /\ toLowerCase t = t.

Lemma good_lower (t : string) : t <> "" -> good_tag (toLowerCase t).
Proof.
  intros H. split; [|apply toLowerCase_idem].
  intros E. apply H. apply String.eqb_eq. rewrite <- toLowerCase_eqb_empty, E. done.
Qed.

Lemma tag_loop_good (ls : list string) (b : bool) (acc : list string) :
  Forall good_tag acc -> Forall good_tag (tag_loop ls b acc).
Proof.
  revert b acc. induction ls as [|line r IH]; intros b acc Hacc; simpl; [done|].
  destruct (String.prefix "tags:" (trim line)).
  - destruct (String.prefix "[" _ && ends_with_char "]" _).
    + apply Forall_app. split; [done|]. apply Forall_forall. intros x Hx.
      apply list_elem_of_In, in_map_iff in Hx as [t [<- Ht]].
      apply List.filter_In in Ht as [_ Ht]. apply good_lower.
      apply negb_true_iff, String.eqb_neq in Ht. done.
    + destruct (String.eqb_spec (trim (drop_str 5 (trim line))) "") as [E|E]; simpl.
      * by apply IH.
      * apply Forall_app. split; [done|]. constructor; [by apply good_lower|constructor].
  - destruct b; [|by apply IH].
    destruct (String.prefix "-" (trim line)).
    + destruct (String.eqb_spec (trim (drop_str 1 (trim line))) "") as [E|E]; simpl; [by apply IH|].
      destruct (String.prefix "#" _); simpl; [by apply IH|].
      apply IH, Forall_app. split; [done|]. constructor; [by apply good_lower|constructor].
    + destruct (negb _ && negb _); [done|by apply IH].
Qed.

Lemma uniq_spec (l : list string) :
  NoDup (uniq l) /\ (forall x, x ∈ uniq l <-> x ∈ l).
Proof.
  unfold uniq.
  assert (forall acc, NoDup acc ->
    NoDup (fold_left (fun acc x => if existsb (String.eqb x) acc then acc else app acc [x]) l acc) /\
    (forall x, x ∈ fold_left (fun acc x => if existsb (String.eqb x) acc then acc else app acc [x]) l acc
               <-> x ∈ acc \/ x ∈ l)) as H.
  { induction l as [|y r IH]; intros acc Hnd; simpl.
    - split; [done|]. set_solver.
    - destruct (existsb (String.eqb y) acc) eqn:E.
      + apply existsb_eqb_elem in E. destruct (IH acc Hnd) as [H1 H2].
        split; [done|]. intros x. rewrite H2. set_solver.
      + assert (Hy : y ∉ acc) by (intros Hin; apply existsb_eqb_elem in Hin; congruence).
        assert (Hnd' : NoDup (app acc [y])).
        { apply NoDup_app. split; [done|split; [set_solver|apply NoDup_singleton]]. }
        destruct (IH _ Hnd') as [H1 H2]. split; [done|]. intros x. rewrite H2. set_solver. }
  destruct (H [] NoDup_nil_2) as [H1 H2]. split; [done|]. intros x. rewrite H2. set_solver.
Qed.

Lemma insert_str_elem (x y : string) (l : list string) : y ∈ insert_str x l <-> y = x \/ y ∈ l.
Proof.
  induction l as [|z r IH]; simpl; [set_solver|].
  destruct (String.compare x z); set_solver.
Qed.

Lemma compare_gt_lt (a b : string) : String.compare a b = Gt -> String.compare b a = Lt.
Proof. intros H. rewrite String.compare_antisym, H. done. Qed.

Lemma insert_str_hd (x y : string) (l : list string) :
  hd_lt y l -> String.compare y x = Lt -> hd_lt y (insert_str x l).
Proof. destruct l as [|z r]; simpl; [done|]. intros Hz Hx. by destruct (String.compare x z). Qed.

Lemma sorted_lt_cons (y : string) (l : list string) : sorted_lt (y :: l) <-> hd_lt y l /\ sorted_lt l.
Proof. destruct l as [|z r]; simpl; tauto. Qed.

Lemma insert_str_sorted (x : string) (l : list string) :
  sorted_lt l -> x ∉ l -> sorted_lt (insert_str x l).
Proof.
  induction l as [|y r IH]; intros Hs Hx; [done|].
  apply sorted_lt_cons in Hs as [Hhd Hr]. simpl.
  destruct (String.compare x y) eqn:C.
  - apply String.compare_eq_iff in C. set_solver.
  - apply sorted_lt_cons. split; [done|]. apply sorted_lt_cons. done.
  - apply sorted_lt_cons. split.
    + apply insert_str_hd; [done|]. by apply compare_gt_lt.
    + apply IH; [done|set_solver].
Qed.

Lemma sort_strings_spec (l : list string) :
  NoDup l -> sorted_lt (sort_strings l) /\ NoDup (sort_strings l) /\
  (forall x, x ∈ sort_strings l <-> x ∈ l).
Proof.
  unfold sort_strings.
  assert (forall acc, sorted_lt acc -> NoDup (app acc l) ->
    sorted_lt (fold_left (fun acc x => insert_str x acc) l acc) /\
    NoDup (fold_left (fun acc x => insert_str x acc) l acc) /\
    (forall x, x ∈ fold_left (fun acc x => insert_str x acc) l acc <-> x ∈ acc \/ x ∈ l)) as H.
  { induction l as [|y r IH]; intros acc Hs Hnd; simpl.
    - rewrite app_nil_r in Hnd. split; [done|split; [done|set_solver]].
    - apply NoDup_app in Hnd as [Hacc [Hdis Hyr]]. apply NoDup_cons in Hyr as [Hy Hr].
      assert (Hya : y ∉ acc) by (intros Hin; apply (Hdis y Hin); set_solver).
      destruct (IH (insert_str y acc)) as [H1 [H2 H3]].
      + by apply insert_str_sorted.
      + apply NoDup_app. split; [|split; [|done]].
        * clear -Hacc Hya. induction acc as [|z t IHt]; simpl; [apply NoDup_singleton|].
          apply NoDup_cons in Hacc as [Hz Ht].
          destruct (String.compare y z).
          -- apply NoDup_cons. split; [set_solver|]. by apply NoDup_cons.
          -- apply NoDup_cons. split; [set_solver|]. by apply NoDup_cons.
          -- apply NoDup_cons. split; [rewrite insert_str_elem; set_solver|]. apply IHt; [done|set_solver].
        * intros x Hx1 Hx2. apply insert_str_elem in Hx1 as [->|Hx1]; [done|].
          apply (Hdis x Hx1). set_solver.
      + split; [done|split; [done|]]. intros x. rewrite H3, insert_str_elem. set_solver. }
  intros Hnd. destruct (H [] I) as [H1 [H2 H3]]; [done|].
  split; [done|split; [done|]]. intros x. rewrite H3. set_solver.
Qed.

(** X18: the tags read from a note's frontmatter come back non-empty,
    lowercase, without duplicates and in strictly increasing order,
    whatever the content. *)
Theorem parseTagsFromContent_normalized (content : string) :
  let tags := parseTagsFromContent content in
  Forall (fun t => t <> "" /\ toLowerCase t = t) tags /\ NoDup tags /\ sorted_lt tags.
Proof.
  simpl. unfold parseTagsFromContent.
  destruct (String.eqb content "" || negb _); [split; [constructor|split; [constructor|done]]|].
  destruct (splitOn _ content) as [|l0 rest]; [split; [constructor|split; [constructor|done]]|].
  destruct (negb _); [split; [constructor|split; [constructor|done]]|].
  destruct (take_until_close rest) as [fm|]; [|split; [constructor|split; [constructor|done]]].
  pose proof (tag_loop_good fm false [] (Forall_nil_2 _)) as Hg.
  destruct (uniq_spec (tag_loop fm false [])) as [Hu1 Hu2].
  destruct (sort_strings_spec _ Hu1) as [Hs1 [Hs2 Hs3]].
  split; [|done]. apply Forall_forall. intros x Hx.
  apply Hs3, Hu2 in Hx. rewrite Forall_forall in Hg. by apply Hg.
Qed.
